(** * CwaWeather-backend: the location registry and the forecast normalizer

    A shallow embedding of [src/locations.js] and [src/server.js].

    - [JS]           the part of the JavaScript runtime the two files rely
                     on: strings ([toLowerCase], [trim]), values and
                     truthiness, objects in a store with prototype lookup,
                     thrown values, computations over the store and the
                     list of requests sent to the provider;
    - [Locations]    [src/locations.js];
    - [Upstream]     the shape of the provider's reply;
    - [Server]       [src/server.js]: [getWeather], [handleGetWeather] and
                     the route handlers;
    - [RegistrySpec], [ServerSpec]  the vocabulary of the statements;
    - [StringFacts], [RegistryFacts], [ServerFacts]  the properties;
    - [RegistryLaws], [ServerLaws]  further properties of the registry, of
                     [getWeather], of [handleGetWeather] and of the
                     listing route.

    Strings are held as their UTF-8 bytes. *)

From Stdlib Require Import Ascii String.
From stdpp Require Import base option list strings gmap fin_maps.

Open Scope string_scope.

(* ===================================================================== *)
(** ** The JavaScript runtime *)
(* ===================================================================== *)

Module JS.

(** *** Strings *)

Definition code (a : ascii) : nat := nat_of_ascii a.

Definition is_upper (a : ascii) : bool := (65 <=? code a)%nat && (code a <=? 90)%nat.
Definition is_lower (a : ascii) : bool := (97 <=? code a)%nat && (code a <=? 122)%nat.

Definition lower_ascii (a : ascii) : ascii :=
  if is_upper a then ascii_of_nat (code a + 32) else a.
Definition upper_ascii (a : ascii) : ascii :=
  if is_lower a then ascii_of_nat (code a - 32) else a.

(** [String.prototype.toLowerCase]. ASCII letters are mapped bytewise. The
    one code point outside ASCII whose lower case is an ASCII letter,
    U+212A KELVIN SIGN (bytes E2 84 AA), becomes [k]. Every other byte is
    kept: the lower case of any other non-ASCII character is again
    non-ASCII, which is all a comparison with the ASCII keys of the table
    can observe. *)
Definition is_kelvin (a b c : ascii) : bool :=
  ((code a =? 226) && (code b =? 132) && (code c =? 170))%nat.

Fixpoint toLowerCase (s : string) : string :=
  match s with
  | EmptyString => EmptyString
  | String a r =>
      match r with
      | String b (String c r') =>
          if is_kelvin a b c then String "k" (toLowerCase r')
          else String (lower_ascii a) (toLowerCase r)
      | _ => String (lower_ascii a) (toLowerCase r)
      end
  end.

(** [String.prototype.toUpperCase], on ASCII letters; it is applied to the
    registered codes only, which are ASCII. *)
Fixpoint toUpperCase (s : string) : string :=
  match s with
  | EmptyString => EmptyString
  | String a r => String (upper_ascii a) (toUpperCase r)
  end.

(** White space and line terminators, as [trim] understands them.
    One byte: TAB, LF, VT, FF, CR, SP. *)
Definition is_ws1 (a : ascii) : bool :=
  ((9 <=? code a) && (code a <=? 13) || (code a =? 32))%nat.

(** Two bytes: U+00A0 (C2 A0). *)
Definition is_ws2 (a b : ascii) : bool :=
  ((code a =? 194) && (code b =? 160))%nat.

(** Three bytes: U+1680 (E1 9A 80); U+2000..U+200A, U+2028, U+2029, U+202F
    (E2 80 80..8A, A8, A9, AF); U+205F (E2 81 9F); U+3000 (E3 80 80);
    U+FEFF (EF BB BF). *)
Definition is_ws3 (a b c : ascii) : bool :=
  ((code a =? 225) && (code b =? 154) && (code c =? 128)
   || (code a =? 226) && (code b =? 128)
      && ((128 <=? code c) && (code c <=? 138)
          || (code c =? 168) || (code c =? 169) || (code c =? 175))
   || (code a =? 226) && (code b =? 129) && (code c =? 159)
   || (code a =? 227) && (code b =? 128) && (code c =? 128)
   || (code a =? 239) && (code b =? 187) && (code c =? 191))%nat.

Fixpoint trimStart (s : string) : string :=
  match s with
  | EmptyString => EmptyString
  | String a r =>
      if is_ws1 a then trimStart r else
      match r with
      | EmptyString => s
      | String b r1 =>
          if is_ws2 a b then trimStart r1 else
          match r1 with
          | EmptyString => s
          | String c r2 => if is_ws3 a b c then trimStart r2 else s
          end
      end
  end.

(** Is the whole string white space? *)
Definition all_ws (s : string) : bool :=
  match trimStart s with EmptyString => true | _ => false end.

Fixpoint trimEnd (s : string) : string :=
  match s with
  | EmptyString => EmptyString
  | String a r => if all_ws s then EmptyString else String a (trimEnd r)
  end.

Definition trim (s : string) : string := trimEnd (trimStart s).

(** *** Values *)

Definition loc := positive.

Inductive value :=
  | VUndefined
  | VNull
  | VStr (s : string)
  | VRef (l : loc).

#[global] Instance value_eq_dec : EqDecision value.
Proof. solve_decision. Defined.

(** ToBoolean. An object is always truthy. *)
Definition truthy (v : value) : bool :=
  match v with
  | VUndefined | VNull => false
  | VStr s => negb (String.eqb s "")
  | VRef _ => true
  end.

(** [a || b] *)
Definition or_else (a b : value) : value := if truthy a then a else b.

(** [a !== b] *)
Definition strict_neq (a b : value) : bool := negb (bool_decide (a = b)).

(** *** Objects *)

(** A property slot: a data property, or the accessor [__proto__] of
    [Object.prototype], whose getter answers the prototype of the object
    the lookup started from. *)
Inductive slot :=
  | Data (v : value)
  | ProtoGetter.

Record property := { enumerable : bool; content : slot }.

Inductive kind :=
  | Plain
  | Fn (name : string).

(** [props] lists the own properties in the order the engine enumerates
    them (for string keys that are not array indices: creation order). *)
Record object := {
  proto : option loc;
  okind : kind;
  props : list (string * property);
}.

Abbreviation heap := (gmap loc object).

Fixpoint assoc {A} (k : string) (l : list (string * A)) : option A :=
  match l with
  | [] => None
  | (k', a) :: l' => if String.eqb k k' then Some a else assoc k l'
  end.

Definition proto_value (o : object) : value :=
  match proto o with Some p => VRef p | None => VNull end.

(** [O.[[Get]](k, receiver)]: own property first, then the prototype chain.
    [None] when the chain is longer than [fuel] or leaves the store, neither
    of which a JavaScript store allows. *)
Fixpoint Get (fuel : nat) (h : heap) (receiver : object) (r : loc) (k : string)
  : option value :=
  match fuel with
  | O => None
  | S fuel' =>
      match h !! r with
      | None => None
      | Some o =>
          match assoc k (props o) with
          | Some p =>
              match content p with
              | Data v => Some v
              | ProtoGetter => Some (proto_value receiver)
              end
          | None =>
              match proto o with
              | None => Some VUndefined
              | Some p => Get fuel' h receiver p k
              end
          end
      end
  end.

(** Prototype chains have no cycle, so no chain is longer than the store. *)
Definition chain_bound (h : heap) : nat := S (size h).

(** *** Thrown values *)

(** The body of a failed upstream reply, [error.response.data]. *)
Record error_data := {
  ed_message : value;
  ed_payload : string;
}.

Record error_response := {
  er_status : nat;
  er_data : error_data;
}.

(** What [axios.get] rejects with. *)
Record axios_error := {
  ae_message : string;
  ae_status : option nat;
  ae_response : option error_response;
}.

Inductive thrown :=
  | ThrownObject (status : nat) (error message : string)
  | ThrownAxios (e : axios_error)
  | TypeError (message : string).

(** *** Computations over the store and the network log *)

(** An upstream request: the [params] handed to [axios.get]. *)
Record request := {
  rq_Authorization : value;
  rq_locationName : value;
}.

Record world := {
  store : heap;
  sent : list request;
}.

(** How a computation ends: with a value, or with a thrown value.
    [Unresolved] stands for a property read that met a reference without
    an object or a prototype chain longer than the store; no JavaScript
    store has either, and the results below show it does not occur. *)
Inductive outcome (A : Type) :=
  | Return (a : A)
  | Throw (e : thrown)
  | Unresolved.
Arguments Return {A} a.
Arguments Throw {A} e.
Arguments Unresolved {A}.

Definition M (A : Type) : Type := world → outcome A * world.

Definition ret {A} (a : A) : M A := λ w, (Return a, w).
Definition throw {A} (e : thrown) : M A := λ w, (Throw e, w).
Definition bind {A B} (m : M A) (k : A → M B) : M B :=
  λ w, match m w with
       | (Return a, w') => k a w'
       | (Throw e, w') => (Throw e, w')
       | (Unresolved, w') => (Unresolved, w')
       end.

(** [try m catch (error) { handler error }] *)
Definition try_catch {A} (m : M A) (handler : thrown → M A) : M A :=
  λ w, match m w with
       | (Throw e, w') => handler e w'
       | r => r
       end.

Declare Scope js_scope.
Delimit Scope js_scope with js.
Notation "'let*' x := m 'in' k" := (bind m (λ x, k))
  (at level 10, x name, m at level 100, k at level 200) : js_scope.

(** Property read [o[k]] on the object at [r]. *)
Definition get_prop (r : loc) (k : string) : M value :=
  λ w, match store w !! r with
       | None => (Unresolved, w)
       | Some o =>
           match Get (chain_bound (store w)) (store w) o r k with
           | Some v => (Return v, w)
           | None => (Unresolved, w)
           end
       end.

(** ToString of a value inside a template literal. A function prints as
    its source, a plain object as [[object Object]]. *)
Definition ToString (h : heap) (v : value) : string :=
  match v with
  | VUndefined => "undefined"
  | VNull => "null"
  | VStr s => s
  | VRef l =>
      match okind <$> h !! l with
      | Some (Fn name) => "function " +:+ name +:+ "() { [native code] }"
      | _ => "[object Object]"
      end
  end.

End JS.

(* ===================================================================== *)
(** ** src/locations.js *)
(* ===================================================================== *)

Module Locations.
Import JS.
Open Scope js_scope.

(** The object literal [locations], key by key in source order. *)
Definition locations : list (string * string) :=
  [ ("taipei", "台北市");
    ("newtaipei", "新北市");
    ("taoyuan", "桃園市");
    ("hsinchu", "新竹市");
    ("hsinchucounty", "新竹縣");
    ("miaoli", "苗栗縣");
    ("taichung", "台中市");
    ("nantou", "南投縣");
    ("changhua", "彰化縣");
    ("yunlin", "雲林縣");
    ("chiayi", "嘉義市");
    ("chiayi_county", "嘉義縣");
    ("tainan", "台南市");
    ("kaohsiung", "高雄市");
    ("pingtung", "屏東縣");
    ("yilan", "宜蘭縣");
    ("taitung", "台東縣");
    ("hualien", "花蓮縣");
    ("penghu", "澎湖縣");
    ("kinmen", "金門縣");
    ("lienchiang", "連江縣") ].

(** *** The store when the module has been loaded *)

Definition object_prototype : loc := 1%positive.
Definition function_prototype : loc := 2%positive.
Definition Object_constructor : loc := 3%positive.
Definition locations_ref : loc := 16%positive.

Definition hidden (v : value) : property :=
  {| enumerable := false; content := Data v |}.
Definition visible (v : value) : property :=
  {| enumerable := true; content := Data v |}.

Definition builtin (name : string) : object :=
  {| proto := Some function_prototype; okind := Fn name; props := [] |}.

(** [Object.prototype]: every plain object inherits these. *)
Definition object_prototype_object : object :=
  {| proto := None; okind := Plain;
     props :=
       [ ("constructor", hidden (VRef Object_constructor));
         ("__defineGetter__", hidden (VRef 4%positive));
         ("__defineSetter__", hidden (VRef 5%positive));
         ("hasOwnProperty", hidden (VRef 6%positive));
         ("__lookupGetter__", hidden (VRef 7%positive));
         ("__lookupSetter__", hidden (VRef 8%positive));
         ("isPrototypeOf", hidden (VRef 9%positive));
         ("propertyIsEnumerable", hidden (VRef 10%positive));
         ("toString", hidden (VRef 11%positive));
         ("valueOf", hidden (VRef 12%positive));
         ("__proto__", {| enumerable := false; content := ProtoGetter |});
         ("toLocaleString", hidden (VRef 13%positive)) ] |}.

(** [Function.prototype]; its own properties are never read here. *)
Definition function_prototype_object : object :=
  {| proto := Some object_prototype; okind := Fn ""; props := [] |}.

Definition locations_object : object :=
  {| proto := Some object_prototype; okind := Plain;
     props := (λ kv, (kv.1, visible (VStr kv.2))) <$> locations |}.

Definition initial_store : heap :=
  list_to_map
    [ (object_prototype, object_prototype_object);
      (function_prototype, function_prototype_object);
      (Object_constructor, builtin "Object");
      (4%positive, builtin "__defineGetter__");
      (5%positive, builtin "__defineSetter__");
      (6%positive, builtin "hasOwnProperty");
      (7%positive, builtin "__lookupGetter__");
      (8%positive, builtin "__lookupSetter__");
      (9%positive, builtin "isPrototypeOf");
      (10%positive, builtin "propertyIsEnumerable");
      (11%positive, builtin "toString");
      (12%positive, builtin "valueOf");
      (13%positive, builtin "toLocaleString");
      (locations_ref, locations_object) ].

Definition initial_world : world := {| store := initial_store; sent := [] |}.

(** *** The exported functions *)

(** [getLocationName]. A truthy [code] that is not a string has no
    [toLowerCase] method, and the call throws. *)
Definition getLocationName (code : value) : M value :=
  if negb (truthy code) then ret VNull else
  match code with
  | VStr s =>
      let normalizedCode := trim (toLowerCase s) in
      let* v := get_prop locations_ref normalizedCode in
      ret (or_else v VNull)
  | _ => throw (TypeError "code.toLowerCase is not a function")
  end.

Definition isValidLocation (code : value) : M bool :=
  let* name := getLocationName code in
  ret (strict_neq name VNull).

(** [Object.keys]: the own enumerable keys, as a new array. *)
Definition own_keys (o : object) : list string :=
  (filter (λ kp, enumerable kp.2 = true) (props o)).*1.

Definition getAllLocationCodes : M (list string) :=
  λ w, match store w !! locations_ref with
       | Some o => (Return (own_keys o), w)
       | None => (Unresolved, w)
       end.

Definition own_value (o : object) (p : property) : value :=
  match content p with
  | Data v => v
  | ProtoGetter => proto_value o
  end.

(** [{ ...o }]: a new plain object that holds the own enumerable properties
    of [o] as data properties. *)
Definition spread (o : object) : object :=
  {| proto := Some object_prototype; okind := Plain;
     props := (λ kp, (kp.1, visible (own_value o kp.2)))
                <$> filter (λ kp, enumerable kp.2 = true) (props o) |}.

Definition allocate (o : object) : M loc :=
  λ w, let r := fresh (dom (store w)) in
       (Return r, {| store := <[r := o]> (store w); sent := sent w |}).

Definition getAllLocations : M loc :=
  λ w, match store w !! locations_ref with
       | Some o => allocate (spread o) w
       | None => (Unresolved, w)
       end.

End Locations.

(* ===================================================================== *)
(** ** src/server.js *)
(* ===================================================================== *)

(** The reply of the upstream data set F-C0032-001, as far as [getWeather]
    reads it: [response.data.records] with its location records, their
    weather elements and the time series of each element. *)
Module Upstream.

Record parameter_t := { parameterName : string }.

Record time_t := {
  startTime : string;
  endTime : string;
  parameter : parameter_t;
}.

Record element_t := {
  elementName : string;
  time : list time_t;
}.

Record location_t := {
  locationName : string;
  weatherElement : list element_t;
}.

Record records_t := {
  datasetDescription : string;
  location : list location_t;
}.

Record data_t := { records : records_t }.

Record response_t := { data : data_t }.

End Upstream.

Module Server.
Import JS Locations.
Open Scope js_scope.

(** One entry of [weatherData.forecasts]. *)
Record forecast_t := {
  startTime : string;
  endTime : string;
  weather : string;
  rain : string;
  minTemp : string;
  maxTemp : string;
  comfort : string;
  windSpeed : string;
}.

Record weatherData_t := {
  city : string;
  updateTime : string;
  forecasts : list forecast_t;
}.

Definition set_weather (v : string) (f : forecast_t) : forecast_t :=
  {| startTime := startTime f; endTime := endTime f; weather := v;
     rain := rain f; minTemp := minTemp f; maxTemp := maxTemp f;
     comfort := comfort f; windSpeed := windSpeed f |}.
Definition set_rain (v : string) (f : forecast_t) : forecast_t :=
  {| startTime := startTime f; endTime := endTime f; weather := weather f;
     rain := v; minTemp := minTemp f; maxTemp := maxTemp f;
     comfort := comfort f; windSpeed := windSpeed f |}.
Definition set_minTemp (v : string) (f : forecast_t) : forecast_t :=
  {| startTime := startTime f; endTime := endTime f; weather := weather f;
     rain := rain f; minTemp := v; maxTemp := maxTemp f;
     comfort := comfort f; windSpeed := windSpeed f |}.
Definition set_maxTemp (v : string) (f : forecast_t) : forecast_t :=
  {| startTime := startTime f; endTime := endTime f; weather := weather f;
     rain := rain f; minTemp := minTemp f; maxTemp := v;
     comfort := comfort f; windSpeed := windSpeed f |}.
Definition set_comfort (v : string) (f : forecast_t) : forecast_t :=
  {| startTime := startTime f; endTime := endTime f; weather := weather f;
     rain := rain f; minTemp := minTemp f; maxTemp := maxTemp f;
     comfort := v; windSpeed := windSpeed f |}.
Definition set_windSpeed (v : string) (f : forecast_t) : forecast_t :=
  {| startTime := startTime f; endTime := endTime f; weather := weather f;
     rain := rain f; minTemp := minTemp f; maxTemp := maxTemp f;
     comfort := comfort f; windSpeed := v |}.

(** The [switch (element.elementName)] of the [forEach] callback. *)
Definition assign (elementName : string) (value : Upstream.parameter_t)
    (forecast : forecast_t) : forecast_t :=
  if String.eqb elementName "Wx" then
    set_weather (Upstream.parameterName value) forecast
  else if String.eqb elementName "PoP" then
    set_rain (Upstream.parameterName value +:+ "%") forecast
  else if String.eqb elementName "MinT" then
    set_minTemp (Upstream.parameterName value +:+ "°C") forecast
  else if String.eqb elementName "MaxT" then
    set_maxTemp (Upstream.parameterName value +:+ "°C") forecast
  else if String.eqb elementName "CI" then
    set_comfort (Upstream.parameterName value) forecast
  else if String.eqb elementName "WS" then
    set_windSpeed (Upstream.parameterName value) forecast
  else forecast.

(** [array.forEach], the callback updating a local [s]. *)
Fixpoint forEach {A St} (l : list A) (f : St → A → M St) (s : St) : M St :=
  match l with
  | [] => ret s
  | a :: l' => let* s' := f s a in forEach l' f s'
  end.

(** [for (let i = from; i < from + count; i++) body], the body updating a
    local [s]. *)
Fixpoint for_loop {St} (count from : nat) (body : nat → St → M St) (s : St)
  : M St :=
  match count with
  | O => ret s
  | S count' => let* s' := body from s in for_loop count' (S from) body s'
  end.

Definition undefined_read (field : string) : thrown :=
  TypeError ("Cannot read properties of undefined (reading '" +:+ field +:+ "')").

(** The callback of [weatherElements.forEach] at time index [i]. *)
Definition visit (i : nat) (forecast : forecast_t) (element : Upstream.element_t)
  : M forecast_t :=
  match Upstream.time element !! i with
  | None => throw (undefined_read "parameter")
  | Some entry =>
      let value := Upstream.parameter entry in
      ret (assign (Upstream.elementName element) value forecast)
  end.

(** The body of the [for] loop of [getWeather]. *)
Definition period (weatherElements : list Upstream.element_t) (i : nat)
    (forecasts : list forecast_t) : M (list forecast_t) :=
  match weatherElements !! 0%nat with
  | None => throw (undefined_read "time")
  | Some first =>
      match Upstream.time first !! i with
      | None => throw (undefined_read "startTime")
      | Some entry =>
          let forecast :=
            {| startTime := Upstream.startTime entry;
               endTime := Upstream.endTime entry;
               weather := ""; rain := ""; minTemp := ""; maxTemp := "";
               comfort := ""; windSpeed := "" |} in
          let* forecast := forEach weatherElements (visit i) forecast in
          ret (forecasts ++ [forecast])%list
      end
  end.

Section Process.

(** [process.env.CWA_API_KEY]: a string, or [undefined]. *)
Variable CWA_API_KEY : value.

(** The provider: what a GET on the data set with these [params] answers,
    a reply or the error [axios] rejects with. *)
Variable upstream : request → axios_error + Upstream.response_t.

Definition axios_get (params : request) : M Upstream.response_t :=
  λ w, let w' := {| store := store w; sent := (sent w ++ [params])%list |} in
       match upstream params with
       | inl e => (Throw (ThrownAxios e), w')
       | inr response => (Return response, w')
       end.

Definition template_404 (location : value) : M string :=
  λ w, (Return ("無法取得 " +:+ ToString (store w) location +:+ " 的天氣資料"), w).

(** The default of the parameter, [location = "宜蘭縣"]. *)
Definition default_location (location : value) : value :=
  match location with VUndefined => VStr "宜蘭縣" | _ => location end.

Definition getWeather (location : value) : M weatherData_t :=
  let location := default_location location in
  if negb (truthy CWA_API_KEY) then
    throw (ThrownObject 500 "伺服器設定錯誤" "請在 .env 檔案中設定 CWA_API_KEY")
  else
    let* response :=
      axios_get {| rq_Authorization := CWA_API_KEY;
                   rq_locationName := location |} in
    let records := Upstream.records (Upstream.data response) in
    match Upstream.location records !! 0%nat with
    | None =>
        let* message := template_404 location in
        throw (ThrownObject 404 "查無資料" message)
    | Some locationData =>
        let weatherElements := Upstream.weatherElement locationData in
        match weatherElements !! 0%nat with
        | None => throw (undefined_read "time")
        | Some first =>
            let timeCount := length (Upstream.time first) in
            let* forecasts :=
              for_loop timeCount 0 (period weatherElements) [] in
            ret {| city := Upstream.locationName locationData;
                   updateTime := Upstream.datasetDescription records;
                   forecasts := forecasts |}
        end
    end.

(** *** The request handlers *)

(** [req.params] *)
Record req_t := { params_location : value }.

(** What [res.json] is given. *)
Inductive body_t :=
  | Success (data : weatherData_t)
  | Failure (error message : value) (details : option error_data)
  | Listing (total : nat) (locations : list (string * value))
            (codes : list string).

Record res_t := { status : nat; body : body_t }.

Definition opt_str (o : option string) : value :=
  match o with Some s => VStr s | None => VUndefined end.

(** The [catch] block of [handleGetWeather]. *)
Definition on_error (error : thrown) : M res_t :=
  match error with
  | ThrownObject st err msg =>
      if (st =? 0)%nat then
        ret {| status := 500;
               body := Failure (VStr "伺服器錯誤")
                         (VStr "無法取得天氣資料，請稍後再試") None |}
      else
        ret {| status := st; body := Failure (VStr err) (VStr msg) None |}
  | ThrownAxios e =>
      match ae_status e, ae_response e with
      | Some (S st), _ =>
          ret {| status := S st;
                 body := Failure VUndefined (VStr (ae_message e)) None |}
      | _, Some response =>
          ret {| status := er_status response;
                 body := Failure (VStr "CWA API 錯誤")
                           (or_else (ed_message (er_data response))
                              (VStr "無法取得天氣資料"))
                           (Some (er_data response)) |}
      | _, None =>
          ret {| status := 500;
                 body := Failure (VStr "伺服器錯誤")
                           (VStr "無法取得天氣資料，請稍後再試") None |}
      end
  | TypeError _ =>
      ret {| status := 500;
             body := Failure (VStr "伺服器錯誤")
                       (VStr "無法取得天氣資料，請稍後再試") None |}
  end.

Definition handleGetWeather (req : req_t) : M res_t :=
  try_catch
    (let location := or_else (params_location req) (VStr "yilan") in
     let* valid := isValidLocation location in
     let* location :=
       (if valid : bool then getLocationName location else ret location) in
     let* weatherData := getWeather location in
     ret {| status := 200; body := Success weatherData |})
    on_error.

(** [JSON.stringify] of the object at [r]: its own enumerable properties. *)
Definition serialize (r : loc) : M (list (string * value)) :=
  λ w, match store w !! r with
       | Some o =>
           (Return ((λ kp, (kp.1, own_value o kp.2))
                      <$> filter (λ kp, enumerable kp.2 = true) (props o)), w)
       | None => (Unresolved, w)
       end.

(** [GET /api/locations] *)
Definition get_api_locations : M res_t :=
  let* codes := getAllLocationCodes in
  let total := length codes in
  let* locations := getAllLocations in
  let* codes := getAllLocationCodes in
  let* locations := serialize locations in
  ret {| status := 200; body := Listing total locations codes |}.

(** [GET /api/weather/kaohsiung] *)
Definition get_api_weather_kaohsiung (req : req_t) : M res_t :=
  let req := {| params_location := VStr "kaohsiung" |} in
  handleGetWeather req.

(** [GET /api/weather/:location] *)
Definition get_api_weather_location (req : req_t) : M res_t :=
  handleGetWeather req.

End Process.

End Server.

(* ===================================================================== *)
(** ** Vocabulary of the statements *)
(* ===================================================================== *)

Module RegistrySpec.
Import JS Locations.

(** The store still holds what loading the module put there. *)
Definition registry_intact (h : heap) : Prop := initial_store ⊆ h.

(** What [locations[k]] evaluates to: the own entry, else what
    [Object.prototype] has under [k]. *)
Definition table_lookup (k : string) : value :=
  match assoc k (props locations_object) with
  | Some p => own_value locations_object p
  | None =>
      match assoc k (props object_prototype_object) with
      | Some p => own_value locations_object p
      | None => VUndefined
      end
  end.

(** *** What a caller can do with the mappings [getAllLocations] returns *)

(** The world, and the references [getAllLocations] has handed out. *)
Definition caller_state : Type := world * gset loc.

(** The object a call of [getAllLocations] creates. *)
Definition snapshot (w : world) : option object :=
  match getAllLocations w with
  | (Return r, w') => store w' !! r
  | _ => None
  end.

(** A caller asks for a mapping, or changes a mapping it was given: any
    assignment to, deletion from or redefinition of the object at [r]
    leaves some object [o] there and touches no other address. *)
Inductive caller_step : caller_state → caller_state → Prop :=
  | caller_asks w R r w' :
      getAllLocations w = (Return r, w') →
      caller_step (w, R) (w', {[r]} ∪ R)
  | caller_mutates w R r o :
      r ∈ R →
      caller_step (w, R) ({| store := <[r := o]> (store w); sent := sent w |}, R).

(** What every step keeps: the store is intact, and no reference handed
    out is one of the objects of the module. *)
Definition caller_inv (st : caller_state) : Prop :=
  registry_intact (store st.1) ∧ ∀ r, r ∈ st.2 → initial_store !! r = None.

(** A sample run: a caller takes a mapping and overwrites it with one
    that sends ["taipei"] elsewhere. *)
Definition tampered : object :=
  {| proto := None; okind := Plain;
     props := [("taipei", visible (VStr "nowhere"))] |}.

Definition copied_world : world :=
  {| store := <[17%positive := spread locations_object]> initial_store;
     sent := [] |}.

Definition tampered_state : caller_state :=
  ({| store := <[17%positive := tampered]> (store copied_world);
      sent := sent copied_world |}, {[17%positive]} ∪ ∅).

(** *** Normal forms of codes *)

Definition normalize (s : string) : string := trim (toLowerCase s).

Definition registered (k : string) : Prop := k ∈ locations.*1.

(** [t] is [s] up to the case of its ASCII letters. *)
Fixpoint case_variant (s t : string) : Prop :=
  match s, t with
  | EmptyString, EmptyString => True
  | String a s', String b t' =>
      lower_ascii a = lower_ascii b ∧ case_variant s' t'
  | _, _ => False
  end.

(** The strings made of white-space characters only. *)
Inductive blank_string : string → Prop :=
  | blank_nil : blank_string ""
  | blank_1 a s :
      is_ws1 a = true → blank_string s → blank_string (String a s)
  | blank_2 a b s :
      is_ws2 a b = true → blank_string s →
      blank_string (String a (String b s))
  | blank_3 a b c s :
      is_ws3 a b c = true → blank_string s →
      blank_string (String a (String b (String c s))).

(** The first bytes of the white-space characters. *)
Definition ws_start (a : ascii) : bool :=
  (is_ws1 a || (code a =? 194) || (code a =? 225) || (code a =? 226)
   || (code a =? 227) || (code a =? 239))%nat.

(** No byte of the string is an upper-case ASCII letter. *)
Fixpoint no_upper (s : string) : bool :=
  match s with
  | EmptyString => true
  | String a r => negb (is_upper a) && no_upper r
  end.

(** The two property names of [Object.prototype] that have no upper-case
    letter. *)
Definition inherited_lower (k : string) : Prop :=
  k = "constructor" ∨ k = "__proto__".

End RegistrySpec.

Module ServerSpec.
Import JS Locations Server RegistrySpec.

(** The six fields of a forecast that a weather element can fill, the
    element identifier that selects each, and what is appended. *)
Inductive field := Weather | Rain | MinTemp | MaxTemp | Comfort | WindSpeed.

Definition read (fd : field) (f : forecast_t) : string :=
  match fd with
  | Weather => weather f
  | Rain => rain f
  | MinTemp => minTemp f
  | MaxTemp => maxTemp f
  | Comfort => comfort f
  | WindSpeed => windSpeed f
  end.

Definition identifier (fd : field) : string :=
  match fd with
  | Weather => "Wx"
  | Rain => "PoP"
  | MinTemp => "MinT"
  | MaxTemp => "MaxT"
  | Comfort => "CI"
  | WindSpeed => "WS"
  end.

Definition suffix (fd : field) : string :=
  match fd with
  | Rain => "%"
  | MinTemp | MaxTemp => "°C"
  | Weather | Comfort | WindSpeed => ""
  end.

Definition forecasts_of (o : outcome weatherData_t) : list forecast_t :=
  match o with Return report => forecasts report | _ => [] end.

(** The forecast as the loop body creates it. *)
Definition blank (entry : Upstream.time_t) : forecast_t :=
  {| startTime := Upstream.startTime entry;
     endTime := Upstream.endTime entry;
     weather := ""; rain := ""; minTemp := ""; maxTemp := "";
     comfort := ""; windSpeed := "" |}.

(** The effect of [weatherElements.forEach] at index [i], when every
    element has an entry there. *)
Fixpoint fill (i : nat) (els : list Upstream.element_t) (f : forecast_t)
  : option forecast_t :=
  match els with
  | [] => Some f
  | el :: els' =>
      match Upstream.time el !! i with
      | None => None
      | Some entry =>
          fill i els' (assign (Upstream.elementName el) (Upstream.parameter entry) f)
      end
  end.

Definition forecast_at (els : list Upstream.element_t) (first : Upstream.element_t)
    (i : nat) : option forecast_t :=
  match Upstream.time first !! i with
  | None => None
  | Some entry => fill i els (blank entry)
  end.

(** No element has fewer than [n] time entries. *)
Definition aligned (els : list Upstream.element_t) (n : nat) : Prop :=
  ∀ el, el ∈ els → (n ≤ length (Upstream.time el))%nat.

(** The elements that carry the identifier of a field. *)
Definition carriers (fd : field) (els : list Upstream.element_t)
  : list Upstream.element_t :=
  filter (λ el, Upstream.elementName el = identifier fd) els.

(** The request [getWeather] sends for [location], and the world once it
    has been sent. *)
Definition the_request (key location : value) : request :=
  {| rq_Authorization := key;
     rq_locationName := default_location location |}.

Definition after_request (key location : value) (w : world) : world :=
  {| store := store w; sent := (sent w ++ [the_request key location])%list |}.

(** *** Sample replies *)

Definition entry (start stop v : string) : Upstream.time_t :=
  {| Upstream.startTime := start; Upstream.endTime := stop;
     Upstream.parameter := {| Upstream.parameterName := v |} |}.

Definition reply_with (els : list Upstream.element_t) : Upstream.response_t :=
  {| Upstream.data :=
       {| Upstream.records :=
            {| Upstream.datasetDescription := "三十六小時天氣預報";
               Upstream.location :=
                 [ {| Upstream.locationName := "高雄市";
                      Upstream.weatherElement := els |} ] |} |} |}.

Definition Wx_two : Upstream.element_t :=
  {| Upstream.elementName := "Wx";
     Upstream.time := [ entry "06:00" "18:00" "晴"; entry "18:00" "06:00" "多雲" ] |}.

Definition PoP_one : Upstream.element_t :=
  {| Upstream.elementName := "PoP";
     Upstream.time := [ entry "06:00" "18:00" "20" ] |}.

Definition PoP_two : Upstream.element_t :=
  {| Upstream.elementName := "PoP";
     Upstream.time := [ entry "06:00" "18:00" "20"; entry "18:00" "06:00" "30" ] |}.

Definition empty_reply : Upstream.response_t :=
  {| Upstream.data :=
       {| Upstream.records :=
            {| Upstream.datasetDescription := "三十六小時天氣預報";
               Upstream.location := [] |} |} |}.

Definition always (response : Upstream.response_t)
  : request → axios_error + Upstream.response_t := λ _, inr response.

(** *** The handlers *)

(** What [handleGetWeather] hands to [getWeather] for the route parameter
    [v]: the name the table has for it when there is one, else [v] itself
    (or ["yilan"] resolved, when [v] is falsy). *)
Definition resolution (v : value) : value :=
  let location := or_else v (VStr "yilan") in
  match location with
  | VStr s =>
      let name :=
        if String.eqb s "" then VNull
        else or_else (table_lookup (normalize s)) VNull in
      if strict_neq name VNull then name else location
  | _ => location
  end.

(** The [total] of a listing. *)
Definition listing_total (o : outcome res_t) : option nat :=
  match o with
  | Return {| body := Listing total _ _ |} => Some total
  | _ => None
  end.

(** What [getWeather] makes of a reply, in a store [h], for the location
    it asked for. *)
Definition report_of (h : heap) (location : value)
    (response : Upstream.response_t) : outcome weatherData_t :=
  let records := Upstream.records (Upstream.data response) in
  match Upstream.location records !! 0%nat with
  | None =>
      Throw (ThrownObject 404 "查無資料"
               ("無法取得 " +:+ ToString h location +:+ " 的天氣資料"))
  | Some locationData =>
      match Upstream.weatherElement locationData !! 0%nat with
      | None => Throw (undefined_read "time")
      | Some first =>
          match mapM (forecast_at (Upstream.weatherElement locationData) first)
                  (seq 0 (length (Upstream.time first))) with
          | Some fs =>
              Return {| city := Upstream.locationName locationData;
                        updateTime := Upstream.datasetDescription records;
                        forecasts := fs |}
          | None => Throw (undefined_read "parameter")
          end
      end
  end.

(** The response of the last branch of the [catch] block. *)
Definition server_error : res_t :=
  {| status := 500;
     body := Failure (VStr "伺服器錯誤") (VStr "無法取得天氣資料，請稍後再試") None |}.

(** A reply with a second record, for another city. *)
Definition two_records : Upstream.response_t :=
  {| Upstream.data :=
       {| Upstream.records :=
            {| Upstream.datasetDescription := "三十六小時天氣預報";
               Upstream.location :=
                 [ {| Upstream.locationName := "高雄市";
                      Upstream.weatherElement := [Wx_two; PoP_two] |};
                   {| Upstream.locationName := "台北市";
                      Upstream.weatherElement := [PoP_one] |} ] |} |} |}.

(** Sample failures of the provider: an HTTP 401 with a body, as a client
    that sets no [status] on the error reports it and as one that does;
    and a failure without any reply. *)
Definition unauthorized : error_response :=
  {| er_status := 401;
     er_data := {| ed_message := VStr "Unauthorized"; ed_payload := "{}" |} |}.


Definition http_401_with_status : axios_error :=
  {| ae_message := "Request failed with status code 401";
     ae_status := Some 401%nat; ae_response := Some unauthorized |}.

Definition network_down : axios_error :=
  {| ae_message := "getaddrinfo ENOTFOUND opendata.cwa.gov.tw";
     ae_status := None; ae_response := None |}.

Definition failing (e : axios_error)
  : request → axios_error + Upstream.response_t := λ _, inl e.

(** The element with its time series cut after [n] entries. *)
Definition truncate (n : nat) (el : Upstream.element_t) : Upstream.element_t :=
  {| Upstream.elementName := Upstream.elementName el;
     Upstream.time := take n (Upstream.time el) |}.

(** Elements with more entries than the first one, [Wx_two]. *)
Definition PoP_three : Upstream.element_t :=
  {| Upstream.elementName := "PoP";
     Upstream.time := [ entry "06:00" "18:00" "20"; entry "18:00" "06:00" "30";
                        entry "06:00" "18:00" "40" ] |}.

(** [error.status] is [undefined] or [0]. *)
Definition no_status (e : axios_error) : Prop :=
  ae_status e = None ∨ ae_status e = Some 0%nat.

End ServerSpec.

(* ===================================================================== *)
(** ** Properties of the string functions *)
(* ===================================================================== *)

Module StringFacts.
Import JS RegistrySpec.

Lemma code_lower_ascii a :
  code (lower_ascii a) = if is_upper a then (code a + 32)%nat else code a.
Proof. destruct a as [[] [] [] [] [] [] [] []]; reflexivity. Qed.

(** Turn boolean tests among the hypotheses into arithmetic facts. *)
Ltac bools :=
  repeat match goal with
  | H : _ && _ = true |- _ => apply andb_true_iff in H as [? ?]
  | H : _ || _ = true |- _ => apply orb_true_iff in H as [?|?]
  | H : _ && _ = false |- _ => apply andb_false_iff in H as [?|?]
  | H : _ || _ = false |- _ => apply orb_false_iff in H as [? ?]
  | H : (_ =? _)%nat = true |- _ => apply Nat.eqb_eq in H
  | H : (_ =? _)%nat = false |- _ => apply Nat.eqb_neq in H
  | H : (_ <=? _)%nat = true |- _ => apply Nat.leb_le in H
  | H : (_ <=? _)%nat = false |- _ => apply Nat.leb_gt in H
  end.

Lemma toLowerCase_cons a r :
  toLowerCase (String a r) =
    match r with
    | String b (String c r') =>
        if is_kelvin a b c then String "k" (toLowerCase r')
        else String (lower_ascii a) (toLowerCase r)
    | _ => String (lower_ascii a) (toLowerCase r)
    end.
Proof. done. Qed.

Lemma toLowerCase_cons_plain a r :
  code a ≠ 226%nat → toLowerCase (String a r) = String (lower_ascii a) (toLowerCase r).
Proof.
  intros Ha. rewrite toLowerCase_cons. destruct r as [|b [|c r']]; try done.
  unfold is_kelvin. apply Nat.eqb_neq in Ha. by rewrite Ha.
Qed.

Lemma code_eqb_variant a a' (n : nat) :
  lower_ascii a = lower_ascii a' → (122 < n)%nat →
  (code a =? n)%nat = (code a' =? n)%nat.
Proof.
  intros H Hn. apply (f_equal code) in H. rewrite !code_lower_ascii in H.
  unfold is_upper in H.
  destruct (Nat.eqb_spec (code a) n), (Nat.eqb_spec (code a') n);
    try done; exfalso;
    destruct (Nat.leb_spec 65 (code a)), (Nat.leb_spec (code a) 90),
             (Nat.leb_spec 65 (code a')), (Nat.leb_spec (code a') 90);
    simpl in H; lia.
Qed.

Lemma kelvin_variant a b c a' b' c' :
  lower_ascii a = lower_ascii a' → lower_ascii b = lower_ascii b' →
  lower_ascii c = lower_ascii c' → is_kelvin a b c = is_kelvin a' b' c'.
Proof.
  intros Ha Hb Hc. unfold is_kelvin.
  rewrite (code_eqb_variant a a'), (code_eqb_variant b b'),
    (code_eqb_variant c c') by (done || lia). done.
Qed.

Lemma toLowerCase_case_variant s t :
  case_variant s t → toLowerCase s = toLowerCase t.
Proof.
  assert (H : ∀ (n : nat) s t, (String.length s ≤ n)%nat →
            case_variant s t → toLowerCase s = toLowerCase t);
    [|by apply (H (String.length s))].
  clear s t. induction n as [|n IH]; intros s t Hn Hst.
  { destruct s, t; simpl in *; try done; lia. }
  destruct s as [|a r], t as [|a' r2]; try done.
  destruct Hst as [Ha Hr]. simpl in Hn. rewrite !toLowerCase_cons.
  assert (Hrr : toLowerCase r = toLowerCase r2) by (apply IH; [lia|done]).
  destruct r as [|b [|c r']], r2 as [|b' [|c' r2']]; simpl in Hr; try tauto;
    try (by f_equal).
  destruct Hr as (Hb & Hc & Hr').
  rewrite (kelvin_variant _ _ _ _ _ _ Ha Hb Hc).
  destruct (is_kelvin a' b' c').
  - f_equal. apply IH; [simpl in Hn; lia|done].
  - by rewrite Ha, Hrr.
Qed.

Lemma append_cons a s x : String a s +:+ x = String a (s +:+ x).
Proof. done. Qed.

Lemma append_empty_r (s : string) : s +:+ "" = s.
Proof.
  induction s as [|a s IH]; [done|]. by rewrite append_cons, IH.
Qed.

Lemma lower_ascii_id a : is_upper a = false → lower_ascii a = a.
Proof. unfold lower_ascii. by intros ->. Qed.

(** Prove [b = false] by refuting [b = true]. *)
Ltac falsify H :=
  match goal with
  | |- ?b = false => destruct b eqn:H; [exfalso|reflexivity]
  end.

Lemma ws1_quiet a :
  is_ws1 a = true → code a ≠ 226%nat ∧ is_upper a = false ∧ ws_start a = true.
Proof.
  intros H. split; [|split].
  - unfold is_ws1 in H. bools; lia.
  - falsify E. unfold is_ws1, is_upper in *. bools; lia.
  - unfold ws_start. by rewrite H.
Qed.

Lemma ws2_quiet a b :
  is_ws2 a b = true →
  is_ws1 a = false ∧ ws_start a = true ∧
  code a ≠ 226%nat ∧ is_upper a = false ∧
  code b ≠ 226%nat ∧ is_upper b = false.
Proof.
  intros H. unfold is_ws2 in H. bools.
  unfold ws_start, is_ws1, is_upper. rewrite H, H0. simpl. repeat split; lia.
Qed.

Lemma ws3_quiet a b c :
  is_ws3 a b c = true →
  is_ws1 a = false ∧ is_ws2 a b = false ∧ ws_start a = true ∧
  is_kelvin a b c = false ∧ is_upper a = false ∧
  code b ≠ 226%nat ∧ is_upper b = false ∧
  code c ≠ 226%nat ∧ is_upper c = false.
Proof.
  intros H.
  assert (Ha : (225 ≤ code a)%nat ∧
               (code a = 225 ∨ code a = 226 ∨ code a = 227 ∨ code a = 239)%nat).
  { unfold is_ws3 in H. bools; lia. }
  assert (Hb : (128 ≤ code b ≤ 191)%nat ∧ code b ≠ 132%nat).
  { unfold is_ws3 in H. bools; lia. }
  assert (Hc : (128 ≤ code c ≤ 191)%nat).
  { unfold is_ws3 in H. bools; lia. }
  clear H. repeat split.
  - falsify E. unfold is_ws1 in E. bools; lia.
  - falsify E. unfold is_ws2 in E. bools; lia.
  - unfold ws_start. destruct Ha as [_ [-> | [-> | [-> | ->]]]]; by rewrite ?orb_true_r.
  - falsify E. unfold is_kelvin in E. bools; lia.
  - falsify E. unfold is_upper in E. bools; lia.
  - lia.
  - falsify E. unfold is_upper in E. bools; lia.
  - lia.
  - falsify E. unfold is_upper in E. bools; lia.
Qed.

Lemma blank_head b p : blank_string (String b p) → ws_start b = true.
Proof.
  inversion 1 as [|? ? H1|? ? ? H2|? ? ? ? H3]; subst.
  - by apply ws1_quiet.
  - by apply ws2_quiet in H2 as (? & ? & _).
  - by apply ws3_quiet in H3 as (? & ? & ? & _).
Qed.

(** No white-space character continues with the first byte of another. *)
Lemma ws_start_no_continuation a b p :
  ws_start p = true →
  is_ws2 a p = false ∧ is_ws3 a p b = false ∧ is_ws3 a b p = false ∧
  is_kelvin a p b = false ∧ is_kelvin a b p = false.
Proof.
  intros H.
  assert (Hp : (code p ≤ 32 ∨ code p = 194 ∨ 225 ≤ code p)%nat).
  { unfold ws_start, is_ws1 in H. bools; lia. }
  clear H. repeat split.
  - falsify E. unfold is_ws2 in E. bools; lia.
  - falsify E. unfold is_ws3 in E. bools; lia.
  - falsify E. unfold is_ws3 in E. bools; lia.
  - falsify E. unfold is_kelvin in E. bools; lia.
  - falsify E. unfold is_kelvin in E. bools; lia.
Qed.

Lemma toLowerCase_cons_quiet a r :
  match r with
  | String b (String c _) => is_kelvin a b c = false
  | _ => True
  end →
  is_upper a = false →
  toLowerCase (String a r) = String a (toLowerCase r).
Proof.
  intros Hk Ha. rewrite toLowerCase_cons, (lower_ascii_id _ Ha).
  destruct r as [|b [|c r']]; try done. by rewrite Hk.
Qed.

Lemma toLowerCase_blank_l pre x :
  blank_string pre → toLowerCase (pre +:+ x) = pre +:+ toLowerCase x.
Proof.
  induction 1 as [|a s H1 _ IH|a b s H2 _ IH|a b c s H3 _ IH];
    rewrite ?append_cons.
  - done.
  - apply ws1_quiet in H1 as (Ha & Hu & _).
    rewrite toLowerCase_cons_plain, lower_ascii_id, IH by done. done.
  - apply ws2_quiet in H2 as (_ & _ & Ha & Hua & Hb & Hub).
    rewrite !toLowerCase_cons_plain, !lower_ascii_id, IH by done. done.
  - apply ws3_quiet in H3 as (_ & _ & _ & Hk & Hua & Hb & Hub & Hc & Huc).
    rewrite toLowerCase_cons_quiet by done.
    rewrite !toLowerCase_cons_plain, !lower_ascii_id, IH by done. done.
Qed.

Lemma toLowerCase_blank post : blank_string post → toLowerCase post = post.
Proof.
  intros H. rewrite <- (append_empty_r post) at 1.
  by rewrite toLowerCase_blank_l, append_empty_r.
Qed.

Lemma trimStart_blank_l pre x :
  blank_string pre → trimStart (pre +:+ x) = trimStart x.
Proof.
  induction 1 as [|a s H1 _ IH|a b s H2 _ IH|a b c s H3 _ IH];
    rewrite ?append_cons.
  - done.
  - cbn [trimStart]. by rewrite H1.
  - apply ws2_quiet in H2 as H. destruct H as (Hn1 & _).
    cbn [trimStart]. by rewrite Hn1, H2.
  - apply ws3_quiet in H3 as H. destruct H as (Hn1 & Hn2 & _).
    cbn [trimStart]. by rewrite Hn1, Hn2, H3.
Qed.

Lemma trimStart_blank post : blank_string post → trimStart post = "".
Proof.
  intros H. rewrite <- (append_empty_r post). by rewrite trimStart_blank_l.
Qed.

Lemma toLowerCase_blank_r s post :
  blank_string post → toLowerCase (s +:+ post) = toLowerCase s +:+ post.
Proof.
  intros Hpost.
  assert (H : ∀ (n : nat) s, (String.length s ≤ n)%nat →
            toLowerCase (s +:+ post) = toLowerCase s +:+ post);
    [|by apply (H (String.length s))].
  clear s. induction n as [|n IH]; intros s Hn.
  { destruct s; simpl in Hn; [|lia]. by apply toLowerCase_blank. }
  destruct s as [|a r]; [by apply toLowerCase_blank|]. simpl in Hn.
  rewrite append_cons, !toLowerCase_cons.
  destruct r as [|b [|c r']].
  - change ("" +:+ post) with post. rewrite toLowerCase_blank by done.
    destruct post as [|p0 [|p1 post']]; try done.
    apply blank_head in Hpost.
    destruct (ws_start_no_continuation a p1 p0 Hpost) as (_ & _ & _ & -> & _).
    done.
  - change (String b "" +:+ post) with (String b post).
    assert (Hr : toLowerCase (String b post) = toLowerCase (String b "") +:+ post).
    { apply (IH (String b "")). simpl in *. lia. }
    destruct post as [|p0 post']; [done|].
    apply blank_head in Hpost.
    destruct (ws_start_no_continuation a b p0 Hpost) as (_ & _ & _ & _ & ->).
    by rewrite Hr.
  - rewrite !append_cons. destruct (is_kelvin a b c).
    + rewrite append_cons. f_equal. apply IH. simpl in Hn. lia.
    + rewrite append_cons. f_equal.
      rewrite <- !append_cons. apply IH. simpl in *. lia.
Qed.

Lemma trimStart_cons a r :
  trimStart (String a r) =
    if is_ws1 a then trimStart r else
    match r with
    | EmptyString => String a r
    | String b r1 =>
        if is_ws2 a b then trimStart r1 else
        match r1 with
        | EmptyString => String a r
        | String c r2 => if is_ws3 a b c then trimStart r2 else String a r
        end
    end.
Proof. done. Qed.

Lemma trimStart_blank_r s post :
  blank_string post →
  trimStart (s +:+ post) =
    match trimStart s with
    | EmptyString => EmptyString
    | t => t +:+ post
    end.
Proof.
  intros Hpost.
  assert (H : ∀ (n : nat) s, (String.length s ≤ n)%nat →
            trimStart (s +:+ post) =
              match trimStart s with
              | EmptyString => EmptyString
              | t => t +:+ post
              end);
    [|by apply (H (String.length s))].
  clear s. induction n as [|n IH]; intros s Hn.
  { destruct s; simpl in Hn; [|lia]. by apply trimStart_blank. }
  destruct s as [|a r]; [by apply trimStart_blank|]. simpl in Hn.
  rewrite append_cons, !trimStart_cons.
  destruct (is_ws1 a); [apply IH; lia|].
  destruct r as [|b r1].
  { change ("" +:+ post) with post.
    destruct post as [|p0 post']; [done|].
    apply blank_head in Hpost.
    destruct (ws_start_no_continuation a p0 p0 Hpost) as (-> & _).
    destruct post' as [|p1 post'']; [done|].
    destruct (ws_start_no_continuation a p1 p0 Hpost) as (_ & -> & _).
    done. }
  rewrite append_cons.
  destruct (is_ws2 a b); [apply IH; simpl in Hn; lia|].
  destruct r1 as [|c r2].
  { change ("" +:+ post) with post.
    destruct post as [|p0 post']; [done|].
    apply blank_head in Hpost.
    destruct (ws_start_no_continuation a b p0 Hpost) as (_ & _ & -> & _).
    done. }
  rewrite append_cons.
  destruct (is_ws3 a b c); [apply IH; simpl in Hn; lia|done].
Qed.

Lemma all_ws_blank_r s post :
  blank_string post → all_ws (s +:+ post) = all_ws s.
Proof.
  intros Hpost. unfold all_ws. rewrite trimStart_blank_r by done.
  by destruct (trimStart s).
Qed.

Lemma trimEnd_blank_r s post :
  blank_string post → trimEnd (s +:+ post) = trimEnd s.
Proof.
  intros Hpost. induction s as [|a r IH].
  - change ("" +:+ post) with post. destruct post as [|p0 post']; [done|].
    cbn [trimEnd]. unfold all_ws. by rewrite trimStart_blank.
  - rewrite append_cons. cbn [trimEnd].
    rewrite <- append_cons, all_ws_blank_r, IH by done. done.
Qed.

Lemma trim_blank pre s post :
  blank_string pre → blank_string post →
  trim (pre +:+ s +:+ post) = trim s.
Proof.
  intros Hpre Hpost. unfold trim.
  rewrite trimStart_blank_l, trimStart_blank_r by done.
  destruct (trimStart s) as [|a t] eqn:E; [done|].
  by rewrite trimEnd_blank_r.
Qed.

Lemma normalize_blank pre s post :
  blank_string pre → blank_string post →
  normalize (pre +:+ s +:+ post) = normalize s.
Proof.
  intros Hpre Hpost. unfold normalize.
  rewrite toLowerCase_blank_l, toLowerCase_blank_r by done.
  by apply trim_blank.
Qed.

End StringFacts.

(* ===================================================================== *)
(** ** Properties of the registry *)
(* ===================================================================== *)

Module RegistryFacts.
Import JS Locations RegistrySpec StringFacts.

Lemma Get_weaken (n : nat) (h h' : heap) recv r k v :
  h ⊆ h' → Get n h recv r k = Some v → Get n h' recv r k = Some v.
Proof.
  intros Hsub. revert r. induction n as [|n IH]; intros r; simpl; [done|].
  destruct (h !! r) as [o|] eqn:Hr; [|done].
  rewrite (lookup_weaken _ _ _ _ Hr Hsub).
  destruct (assoc k (props o)); [done|].
  destruct (proto o); [apply IH|done].
Qed.

Lemma Get_more_fuel (n m : nat) (h : heap) recv r k v :
  (n ≤ m)%nat → Get n h recv r k = Some v → Get m h recv r k = Some v.
Proof.
  revert m r. induction n as [|n IH]; intros m r Hle; simpl; [done|].
  destruct m as [|m]; [lia|]. simpl.
  destruct (h !! r) as [o|]; [|done].
  destruct (assoc k (props o)); [done|].
  destruct (proto o); [apply IH; lia|done].
Qed.

Lemma initial_store_locations : initial_store !! locations_ref = Some locations_object.
Proof. reflexivity. Qed.

Lemma initial_store_prototype :
  initial_store !! object_prototype = Some object_prototype_object.
Proof. reflexivity. Qed.

Lemma initial_store_size : size initial_store = 14%nat.
Proof. reflexivity. Qed.

Lemma Get_initial k :
  Get 2 initial_store locations_object locations_ref k = Some (table_lookup k).
Proof.
  unfold table_lookup. cbn [Get].
  rewrite initial_store_locations.
  destruct (assoc k (props locations_object)) as [p|]; [by destruct p as [e []]|].
  cbn [proto locations_object]. rewrite initial_store_prototype.
  destruct (assoc k (props object_prototype_object)) as [p|];
    [by destruct p as [e []]|done].
Qed.

Lemma intact_locations h :
  registry_intact h → h !! locations_ref = Some locations_object.
Proof. intros Hh. exact (lookup_weaken _ _ _ _ initial_store_locations Hh). Qed.

Lemma intact_chain_bound h : registry_intact h → (2 ≤ chain_bound h)%nat.
Proof.
  intros Hh. unfold chain_bound.
  pose proof (map_subseteq_size _ _ Hh) as Hs. rewrite initial_store_size in Hs. lia.
Qed.

(** In an intact store the read [locations[k]] is decided by the table and
    [Object.prototype] alone. *)
Lemma get_prop_locations w k :
  registry_intact (store w) →
  get_prop locations_ref k w = (Return (table_lookup k), w).
Proof.
  intros Hh. unfold get_prop. rewrite (intact_locations _ Hh).
  erewrite Get_more_fuel; [done|by apply intact_chain_bound|].
  eapply Get_weaken; [exact Hh|apply Get_initial].
Qed.

Lemma getLocationName_string w s :
  registry_intact (store w) →
  getLocationName (VStr s) w =
    (Return (if String.eqb s "" then VNull
             else or_else (table_lookup (trim (toLowerCase s))) VNull), w).
Proof.
  intros Hh. unfold getLocationName. cbn [truthy]. rewrite negb_involutive.
  destruct (String.eqb s ""); [done|].
  unfold bind. by rewrite get_prop_locations.
Qed.

Lemma getLocationName_not_string w v :
  (∀ s, v ≠ VStr s) →
  getLocationName v w =
    (if truthy v then Throw (TypeError "code.toLowerCase is not a function")
     else Return VNull, w).
Proof. intros Hv. destruct v; try done. by destruct (Hv s). Qed.

(** [getLocationName] reads the store and leaves it as it is; its outcome
    is the same in every intact store. *)
Lemma getLocationName_intact w1 w2 v :
  registry_intact (store w1) → registry_intact (store w2) →
  (getLocationName v w1).1 = (getLocationName v w2).1.
Proof.
  intros H1 H2. destruct v as [| |s|l]; try done.
  by rewrite !getLocationName_string.
Qed.

Lemma getLocationName_frame w v :
  registry_intact (store w) → (getLocationName v w).2 = w.
Proof.
  intros Hw. destruct v as [| |s|l]; try done.
  by rewrite getLocationName_string.
Qed.

Lemma isValidLocation_string w s :
  registry_intact (store w) →
  isValidLocation (VStr s) w =
    (Return (strict_neq
               (if String.eqb s "" then VNull
                else or_else (table_lookup (trim (toLowerCase s))) VNull)
               VNull), w).
Proof.
  intros Hh. unfold isValidLocation, bind. by rewrite getLocationName_string.
Qed.

Lemma getAllLocationCodes_intact w :
  registry_intact (store w) →
  getAllLocationCodes w = (Return locations.*1, w).
Proof.
  intros Hh. unfold getAllLocationCodes. by rewrite (intact_locations _ Hh).
Qed.

Lemma getAllLocations_intact w :
  registry_intact (store w) →
  getAllLocations w =
    (Return (fresh (dom (store w))),
     {| store := <[fresh (dom (store w)) := spread locations_object]> (store w);
        sent := sent w |}).
Proof.
  intros Hh. unfold getAllLocations. by rewrite (intact_locations _ Hh).
Qed.

Lemma fresh_not_initial h :
  registry_intact h → initial_store !! fresh (dom h) = None.
Proof.
  intros Hh. destruct (initial_store !! fresh (dom h)) as [o|] eqn:E; [|done].
  pose proof (lookup_weaken _ _ _ _ E Hh) as E'.
  destruct (is_fresh (dom h)). apply elem_of_dom. eauto.
Qed.

Lemma caller_step_inv st st' :
  caller_inv st → caller_step st st' → caller_inv st'.
Proof.
  intros [Hh HR] Hstep. destruct Hstep as [w R r w' Hcall|w R r o Hr]; simpl in *.
  - rewrite getAllLocations_intact in Hcall by done. simplify_eq. split; simpl.
    + apply insert_subseteq_r; [by apply fresh_not_initial|done].
    + intros r [->%elem_of_singleton|Hr]%elem_of_union; [by apply fresh_not_initial|auto].
  - split; simpl; [|done]. apply insert_subseteq_r; auto.
Qed.

Lemma caller_steps_inv st st' :
  caller_inv st → rtc caller_step st st' → caller_inv st'.
Proof. intros Hst Hsteps. induction Hsteps; eauto using caller_step_inv. Qed.

Lemma snapshot_intact w :
  registry_intact (store w) → snapshot w = Some (spread locations_object).
Proof.
  intros Hh. unfold snapshot. rewrite getAllLocations_intact by done.
  simpl. apply lookup_insert_eq.
Qed.

Lemma table_lookup_unknown k :
  k ∉ locations.*1 → k ∉ (props object_prototype_object).*1 →
  table_lookup k = VUndefined.
Proof.
  intros Hk Hp. unfold table_lookup.
  assert (Hassoc : ∀ (A : Type) (l : list (string * A)), k ∉ l.*1 → assoc k l = None).
  { intros A l. induction l as [|[k' a] l IH]; [done|]. simpl.
    intros Hn. apply not_elem_of_cons in Hn as [Hne Hn].
    destruct (String.eqb_spec k k'); [done|auto]. }
  rewrite !Hassoc; [done|done|].
  by replace ((props locations_object).*1) with (locations.*1) by reflexivity.
Qed.

(** Outside the registered codes and the property names of
    [Object.prototype], every string resolves to [null] and is not valid;
    so do the empty string, [null] and [undefined]. *)
Lemma getLocationName_unknown w s :
  registry_intact (store w) →
  ¬ registered (normalize s) →
  normalize s ∉ (props object_prototype_object).*1 →
  getLocationName (VStr s) w = (Return VNull, w) ∧
  isValidLocation (VStr s) w = (Return false, w).
Proof.
  intros Hh Hk Hp.
  rewrite isValidLocation_string, getLocationName_string by done.
  fold (normalize s). rewrite table_lookup_unknown by done.
  by destruct (String.eqb s "").
Qed.

Lemma getLocationName_falsy w v :
  truthy v = false →
  getLocationName v w = (Return VNull, w) ∧
  isValidLocation v w = (Return false, w).
Proof.
  intros Hv. unfold isValidLocation, bind, getLocationName. by rewrite Hv.
Qed.

Lemma initial_intact : registry_intact (store initial_world).
Proof. unfold registry_intact. simpl. reflexivity. Qed.

(** C4. [getLocationName] is documented to return [null] for a code that
    does not exist. The code "constructor" is not a key of the table, yet
    the read [locations[normalizedCode]] finds the property that every
    object inherits from [Object.prototype]: [getLocationName] returns the
    function [Object], and [isValidLocation] answers [true]. *)
Theorem getLocationName_inherited_key :
  ¬ registered (normalize "constructor") ∧
  getLocationName (VStr "constructor") initial_world
    = (Return (VRef Object_constructor), initial_world) ∧
  isValidLocation (VStr "constructor") initial_world
    = (Return true, initial_world).
Proof.
  split; [|split].
  - unfold registered. vm_compute normalize. intros Hin.
    apply list_elem_of_In in Hin. vm_compute in Hin.
    repeat (destruct Hin as [Hin|Hin]; [discriminate Hin|]). exact Hin.
  - by rewrite getLocationName_string by apply initial_intact.
  - by rewrite isValidLocation_string by apply initial_intact.
Qed.

(** C7. In an intact store: for every registered code [c] the upper-cased
    code resolves as [c] does, to a name; [" TaiPei "] resolves as
    ["taipei"] does; two strings that differ in the case of ASCII letters
    only resolve alike; white space around a string does not change what
    it resolves to; and, in general, two strings with the same normal form
    (lower case, then trimmed) resolve alike. *)
Theorem getLocationName_case_trim w :
  registry_intact (store w) →
  (∀ c, registered c →
     getLocationName (VStr (toUpperCase c)) w = getLocationName (VStr c) w ∧
     ∃ name, getLocationName (VStr c) w = (Return (VStr name), w)) ∧
  getLocationName (VStr " TaiPei ") w = getLocationName (VStr "taipei") w ∧
  (∀ s t, case_variant s t →
     getLocationName (VStr s) w = getLocationName (VStr t) w) ∧
  (∀ pre s post, blank_string pre → blank_string post →
     getLocationName (VStr (pre +:+ s +:+ post)) w = getLocationName (VStr s) w) ∧
  (∀ s t, normalize s = normalize t →
     getLocationName (VStr s) w = getLocationName (VStr t) w).
Proof.
  intros Hh.
  assert (Hnormal : ∀ s t, normalize s = normalize t →
            getLocationName (VStr s) w = getLocationName (VStr t) w).
  { intros s t Hst. rewrite !getLocationName_string by done.
    unfold normalize in Hst. rewrite Hst.
    destruct (String.eqb_spec s "") as [->|Hs], (String.eqb_spec t "") as [->|Ht];
      try done.
    by rewrite <- Hst. }
  split; [|split; [|split; [|split]]].
  - intros c Hc. rewrite !getLocationName_string by done.
    unfold registered in Hc. apply list_elem_of_In in Hc.
    vm_compute in Hc.
    repeat (destruct Hc as [<-|Hc]; [split; [reflexivity|eexists; reflexivity]|]).
    destruct Hc.
  - by rewrite !getLocationName_string.
  - intros s t Hst. apply Hnormal. unfold normalize.
    by rewrite (toLowerCase_case_variant s t).
  - intros pre s post Hpre Hpost. apply Hnormal. by apply normalize_blank.
  - exact Hnormal.
Qed.

Lemma getLocationName_case_trim_witness :
  registry_intact (store initial_world) ∧
  getLocationName (VStr (toUpperCase "kaohsiung")) initial_world
    = getLocationName (VStr "kaohsiung") initial_world ∧
  getLocationName (VStr " TaiPei ") initial_world
    = getLocationName (VStr "taipei") initial_world.
Proof.
  assert (Hintact : registry_intact (store initial_world))
    by (unfold registry_intact; simpl; reflexivity).
  destruct (getLocationName_case_trim initial_world Hintact) as (Hcodes & Hpad & _).
  split; [exact Hintact|]. split; [|exact Hpad].
  apply Hcodes. unfold registered. apply list_elem_of_In. vm_compute. tauto.
Defined.

(** C9. Start from an intact store and let a caller ask for mappings and
    change the mappings it was given, in any order and any number of
    times. The table of the registry is still the object the module
    created, and [getLocationName], [getAllLocationCodes] and
    [getAllLocations] answer as they did at the start. *)
Theorem getAllLocations_defensive_copy (w : world) (st : caller_state) :
  registry_intact (store w) →
  rtc caller_step (w, ∅) st →
  store st.1 !! locations_ref = store w !! locations_ref ∧
  (∀ code, (getLocationName code st.1).1 = (getLocationName code w).1) ∧
  (getAllLocationCodes st.1).1 = (getAllLocationCodes w).1 ∧
  snapshot st.1 = snapshot w ∧
  snapshot w = Some (spread locations_object).
Proof.
  intros Hw Hsteps.
  assert (Hinv : caller_inv st).
  { eapply caller_steps_inv; [|exact Hsteps]. split; [done|]. simpl. set_solver. }
  destruct Hinv as [Hst _]. split; [|split; [|split; [|split]]].
  - by rewrite !intact_locations.
  - intros code. by apply getLocationName_intact.
  - by rewrite !getAllLocationCodes_intact.
  - by rewrite !snapshot_intact.
  - by apply snapshot_intact.
Qed.

Lemma getAllLocations_defensive_copy_witness :
  getLocationName (VStr "taipei") tampered_state.1
    = (Return (VStr "台北市"), tampered_state.1) ∧
  (getAllLocationCodes tampered_state.1).1 = Return locations.*1 ∧
  snapshot tampered_state.1 = Some (spread locations_object).
Proof.
  assert (Hsteps : rtc caller_step (initial_world, ∅) tampered_state).
  { apply (rtc_l _ _ (copied_world, {[17%positive]} ∪ ∅)).
    - apply (caller_asks initial_world ∅ 17%positive copied_world). vm_compute. reflexivity.
    - apply rtc_once.
      apply (caller_mutates copied_world _ 17%positive tampered). set_solver. }
  assert (Hintact : registry_intact (store initial_world))
    by (unfold registry_intact; simpl; reflexivity).
  destruct (getAllLocations_defensive_copy initial_world tampered_state Hintact Hsteps)
    as (_ & Hname & Hcodes & Hsnap & Hsnap0).
  split; [|split].
  - specialize (Hname (VStr "taipei")).
    destruct (getLocationName (VStr "taipei") tampered_state.1) as [o w'] eqn:E.
    simpl in Hname. subst o.
    pose proof (getLocationName_frame tampered_state.1 (VStr "taipei")) as Hf.
    rewrite E in Hf. simpl in Hf. rewrite Hf; [reflexivity|].
    apply insert_subseteq_r; [reflexivity|].
    apply insert_subseteq_r; reflexivity.
  - rewrite Hcodes. reflexivity.
  - rewrite Hsnap. exact Hsnap0.
Defined.

End RegistryFacts.

(* ===================================================================== *)
(** ** Properties of the forecast normalizer and of the handlers *)
(* ===================================================================== *)

Module ServerFacts.
Import JS Locations Server RegistrySpec ServerSpec StringFacts RegistryFacts.

Lemma forEach_visit i els f w :
  forEach els (visit i) f w =
    (match fill i els f with
     | Some f' => Return f'
     | None => Throw (undefined_read "parameter")
     end, w).
Proof.
  revert f. induction els as [|el els IH]; intros f; [done|].
  cbn [forEach fill]. unfold bind, visit at 1.
  destruct (Upstream.time el !! i); [|done]. apply IH.
Qed.

Lemma period_eq els first i acc w :
  els !! 0%nat = Some first →
  (i < length (Upstream.time first))%nat →
  period els i acc w =
    (match forecast_at els first i with
     | Some f => Return (acc ++ [f])%list
     | None => Throw (undefined_read "parameter")
     end, w).
Proof.
  intros Hfirst Hi. unfold period, forecast_at. rewrite Hfirst.
  destruct (lookup_lt_is_Some_2 _ _ Hi) as [entry ->].
  unfold bind. rewrite forEach_visit. fold (blank entry).
  by destruct (fill i els (blank entry)).
Qed.

Lemma for_loop_period els first count from acc w :
  els !! 0%nat = Some first →
  (from + count ≤ length (Upstream.time first))%nat →
  for_loop count from (period els) acc w =
    (match mapM (forecast_at els first) (seq from count) with
     | Some fs => Return (acc ++ fs)%list
     | None => Throw (undefined_read "parameter")
     end, w).
Proof.
  intros Hfirst. revert from acc.
  induction count as [|count IH]; intros from acc Hle.
  - simpl. by rewrite app_nil_r.
  - cbn [for_loop seq]. unfold bind. rewrite (period_eq _ first) by (done || lia).
    cbn [mapM]. destruct (forecast_at els first from) as [f|]; [|done].
    rewrite IH by lia. simpl.
    destruct (mapM (forecast_at els first) (seq (S from) count)); [|done].
    simpl. by rewrite <- app_assoc.
Qed.

Lemma read_assign fd name v f :
  read fd (assign name v f) =
    if String.eqb name (identifier fd)
    then Upstream.parameterName v +:+ suffix fd
    else read fd f.
Proof.
  unfold assign.
  destruct (String.eqb_spec name "Wx") as [->|H1];
    [destruct fd; simpl; by rewrite ?append_empty_r|].
  destruct (String.eqb_spec name "PoP") as [->|H2]; [by destruct fd|].
  destruct (String.eqb_spec name "MinT") as [->|H3]; [by destruct fd|].
  destruct (String.eqb_spec name "MaxT") as [->|H4]; [by destruct fd|].
  destruct (String.eqb_spec name "CI") as [->|H5];
    [destruct fd; simpl; by rewrite ?append_empty_r|].
  destruct (String.eqb_spec name "WS") as [->|H6];
    [destruct fd; simpl; by rewrite ?append_empty_r|].
  destruct fd; simpl identifier;
    by match goal with |- context [String.eqb name ?k] =>
         destruct (String.eqb_spec name k) end.
Qed.

(** An element whose identifier is none of the six changes nothing. *)
Lemma assign_other name v f :
  (∀ fd, name ≠ identifier fd) → assign name v f = f.
Proof.
  intros Hother. unfold assign.
  destruct (String.eqb_spec name "Wx"); [by destruct (Hother Weather)|].
  destruct (String.eqb_spec name "PoP"); [by destruct (Hother Rain)|].
  destruct (String.eqb_spec name "MinT"); [by destruct (Hother MinTemp)|].
  destruct (String.eqb_spec name "MaxT"); [by destruct (Hother MaxTemp)|].
  destruct (String.eqb_spec name "CI"); [by destruct (Hother Comfort)|].
  destruct (String.eqb_spec name "WS"); [by destruct (Hother WindSpeed)|].
  done.
Qed.

Lemma times_assign name v f :
  startTime (assign name v f) = startTime f ∧
  endTime (assign name v f) = endTime f.
Proof. unfold assign. by repeat case_match. Qed.

Lemma fill_snoc i els el f :
  fill i (els ++ [el]) f =
    match fill i els f with
    | None => None
    | Some f' =>
        match Upstream.time el !! i with
        | None => None
        | Some entry =>
            Some (assign (Upstream.elementName el) (Upstream.parameter entry) f')
        end
    end.
Proof.
  revert f. induction els as [|el' els IH]; intros f; simpl.
  - by destruct (Upstream.time el !! i).
  - destruct (Upstream.time el' !! i); [apply IH|done].
Qed.

Lemma fill_is_Some i els f :
  is_Some (fill i els f) ↔
  ∀ el, el ∈ els → (i < length (Upstream.time el))%nat.
Proof.
  revert f. induction els as [|el els IH]; intros f; simpl.
  - split; [intros _ el Hel; by apply elem_of_nil in Hel|eauto].
  - destruct (Upstream.time el !! i) as [entry|] eqn:E.
    + rewrite IH. apply lookup_lt_Some in E. split.
      * intros H el' [->|Hel]%elem_of_cons; auto.
      * intros H el' Hel. apply H. by right.
    + apply lookup_ge_None in E. split; [by intros [? ?]|].
      intros H. specialize (H el (list_elem_of_here _ _)). lia.
Qed.

Lemma fill_times i els f f' :
  fill i els f = Some f' →
  startTime f' = startTime f ∧ endTime f' = endTime f.
Proof.
  revert f. induction els as [|el els IH]; intros f; simpl; [naive_solver|].
  destruct (Upstream.time el !! i) as [entry|]; [|done].
  intros [-> ->]%IH. apply times_assign.
Qed.

(** After the [forEach], a field holds the value of the last element that
    carries its identifier, with the suffix; with no such element it holds
    what it held before. *)
Lemma fill_read fd i els f f' :
  fill i els f = Some f' →
  match last (carriers fd els) with
  | Some el =>
      ∃ entry, Upstream.time el !! i = Some entry ∧
        read fd f' =
          Upstream.parameterName (Upstream.parameter entry) +:+ suffix fd
  | None => read fd f' = read fd f
  end.
Proof.
  revert f'. induction els as [|el els IH] using rev_ind; intros f'.
  - simpl. by intros [= ->].
  - rewrite fill_snoc. destruct (fill i els f) as [f1|]; [|done].
    destruct (Upstream.time el !! i) as [entry|] eqn:E; [|done].
    intros [= <-]. specialize (IH f1 eq_refl).
    unfold carriers in *. rewrite filter_app, read_assign.
    rewrite filter_cons, filter_nil.
    destruct (String.eqb_spec (Upstream.elementName el) (identifier fd)) as [Heq|Hne].
    + rewrite decide_True by done. rewrite last_snoc. eauto.
    + rewrite decide_False by done. by rewrite app_nil_r.
Qed.

(** All periods can be built exactly when no element is shorter than the
    first. *)
Lemma forecasts_is_Some els first :
  is_Some (mapM (forecast_at els first) (seq 0 (length (Upstream.time first))))
  ↔ aligned els (length (Upstream.time first)).
Proof.
  rewrite mapM_is_Some, Forall_forall. unfold aligned. split.
  - intros H el Hel. apply Nat.nlt_ge. intros Hlt.
    specialize (H (length (Upstream.time el))).
    destruct H as [f Hf].
    { apply elem_of_seq. lia. }
    unfold forecast_at in Hf.
    destruct (Upstream.time first !! length (Upstream.time el)); [|done].
    assert (Hs : is_Some (fill (length (Upstream.time el)) els (blank t))) by eauto.
    rewrite fill_is_Some in Hs. specialize (Hs el Hel). lia.
  - intros H i [_ Hi]%elem_of_seq. simpl in Hi. unfold compose, forecast_at.
    destruct (lookup_lt_is_Some_2 _ _ Hi) as [entry ->].
    apply fill_is_Some. intros el Hel. specialize (H el Hel). lia.
Qed.

Section Reply.

Variable CWA_API_KEY : value.
Variable upstream : request → axios_error + Upstream.response_t.
Variable location : value.
Variable response : Upstream.response_t.

Hypothesis key_set : truthy CWA_API_KEY = true.
Hypothesis replied : upstream (the_request CWA_API_KEY location) = inr response.

Lemma getWeather_no_record w :
  Upstream.location (Upstream.records (Upstream.data response)) = [] →
  getWeather CWA_API_KEY upstream location w =
    (Throw (ThrownObject 404 "查無資料"
              ("無法取得 " +:+ ToString (store w) (default_location location)
               +:+ " 的天氣資料")),
     after_request CWA_API_KEY location w).
Proof.
  intros Hnone. unfold getWeather. rewrite key_set. cbn [negb].
  unfold bind, axios_get. fold (the_request CWA_API_KEY location). rewrite replied, Hnone. done.
Qed.

Lemma getWeather_reply w locationData first :
  Upstream.location (Upstream.records (Upstream.data response)) !! 0%nat
    = Some locationData →
  Upstream.weatherElement locationData !! 0%nat = Some first →
  getWeather CWA_API_KEY upstream location w =
    (match mapM (forecast_at (Upstream.weatherElement locationData) first)
             (seq 0 (length (Upstream.time first))) with
     | Some fs =>
         Return {| city := Upstream.locationName locationData;
                   updateTime :=
                     Upstream.datasetDescription
                       (Upstream.records (Upstream.data response));
                   forecasts := fs |}
     | None => Throw (undefined_read "parameter")
     end, after_request CWA_API_KEY location w).
Proof.
  intros Hrecord Hfirst. unfold getWeather. rewrite key_set. cbn [negb].
  unfold bind at 1. unfold axios_get. fold (the_request CWA_API_KEY location). rewrite replied.
  rewrite Hrecord, Hfirst. unfold bind.
  rewrite (for_loop_period _ first) by (done || lia).
  by destruct (mapM _ _).
Qed.

End Reply.

(** *** The claims on [getWeather] *)

(** C1, as stated, fails. The record has a "Wx" element with two time
    entries, placed after a "PoP" element with one: [getWeather] returns a
    report with one forecast, not two. *)
Lemma forecast_count_not_Wx_count :
  Wx_two ∈ [PoP_one; Wx_two] ∧
  Upstream.elementName Wx_two = "Wx" ∧
  ∃ report,
    (getWeather (VStr "key") (always (reply_with [PoP_one; Wx_two]))
       (VStr "高雄市") initial_world).1 = Return report ∧
    length (forecasts report) = 1%nat ∧
    length (forecasts report) ≠ length (Upstream.time Wx_two).
Proof.
  split; [set_solver|]. split; [done|].
  eexists. split; [vm_compute; reflexivity|]. split; [done|]. simpl. lia.
Qed.

(** C1, amended. When the credential is set and the upstream reply has a
    first location record with a first weather element, every report
    [getWeather] returns has as many forecasts as that first element has
    time entries (so as many as "Wx" has when "Wx" comes first); and a
    report is returned whenever no element has fewer entries than the
    first. *)
Theorem getWeather_forecast_count key upstream location response w
    locationData first :
  truthy key = true →
  upstream (the_request key location) = inr response →
  Upstream.location (Upstream.records (Upstream.data response)) !! 0%nat
    = Some locationData →
  Upstream.weatherElement locationData !! 0%nat = Some first →
  (∀ report w',
     getWeather key upstream location w = (Return report, w') →
     length (forecasts report) = length (Upstream.time first)) ∧
  (aligned (Upstream.weatherElement locationData) (length (Upstream.time first)) →
   ∃ report,
     getWeather key upstream location w = (Return report, after_request key location w)).
Proof.
  intros Hkey Hreply Hrecord Hfirst.
  rewrite (getWeather_reply _ _ _ _ Hkey Hreply w _ _ Hrecord Hfirst).
  split.
  - intros report w' Hret.
    destruct (mapM _ _) as [fs|] eqn:E; [|done].
    apply length_mapM in E. rewrite length_seq in E. by simplify_eq.
  - intros [fs ->]%forecasts_is_Some. eauto.
Qed.

Lemma getWeather_forecast_count_witness :
  ∃ report,
    getWeather (VStr "key") (always (reply_with [Wx_two; PoP_two])) (VStr "高雄市")
      initial_world
    = (Return report, after_request (VStr "key") (VStr "高雄市") initial_world) ∧
    length (forecasts report) = 2%nat.
Proof.
  destruct (getWeather_forecast_count (VStr "key")
              (always (reply_with [Wx_two; PoP_two])) (VStr "高雄市")
              (reply_with [Wx_two; PoP_two]) initial_world
              {| Upstream.locationName := "高雄市";
                 Upstream.weatherElement := [Wx_two; PoP_two] |} Wx_two
              eq_refl eq_refl eq_refl eq_refl) as [Hcount Hreturn].
  destruct Hreturn as [report Hreport].
  { intros el Hel. apply list_elem_of_In in Hel. simpl in Hel.
    destruct Hel as [<-|[<-|[]]]; simpl; lia. }
  exists report. split; [exact Hreport|]. exact (Hcount _ _ Hreport).
Defined.

(** C2. In a report that [getWeather] returns, the forecast at index [i]
    takes its start and end time from entry [i] of the first element; each
    of the six fields holds the value at index [i] of the last element that
    carries the identifier of the field ("Wx", "PoP", "MinT", "MaxT", "CI",
    "WS"), followed by the suffix of the field ("%" for "PoP", "°C" for
    "MinT" and "MaxT", nothing otherwise), and is the empty string when no
    element carries the identifier. An element with any other identifier
    assigns nothing. *)
Theorem getWeather_routes_fields key upstream location response w
    locationData first report w' :
  truthy key = true →
  upstream (the_request key location) = inr response →
  Upstream.location (Upstream.records (Upstream.data response)) !! 0%nat
    = Some locationData →
  Upstream.weatherElement locationData !! 0%nat = Some first →
  getWeather key upstream location w = (Return report, w') →
  (∀ i f, forecasts report !! i = Some f →
     (∃ entry0, Upstream.time first !! i = Some entry0 ∧
        startTime f = Upstream.startTime entry0 ∧
        endTime f = Upstream.endTime entry0) ∧
     ∀ fd,
       match last (carriers fd (Upstream.weatherElement locationData)) with
       | Some el =>
           ∃ entry, Upstream.time el !! i = Some entry ∧
             read fd f =
               Upstream.parameterName (Upstream.parameter entry) +:+ suffix fd
       | None => read fd f = ""
       end) ∧
  (∀ name v f, (∀ fd, name ≠ identifier fd) → assign name v f = f).
Proof.
  intros Hkey Hreply Hrecord Hfirst.
  rewrite (getWeather_reply _ _ _ _ Hkey Hreply w _ _ Hrecord Hfirst).
  intros Hret. split; [|apply assign_other].
  destruct (mapM _ _) as [fs|] eqn:E; [|done].
  injection Hret as <- _. cbn [forecasts].
  intros i f Hf. apply mapM_Some in E.
  destruct (Forall2_lookup_r _ _ _ _ _ E Hf) as (j & Hj & Hat).
  apply lookup_seq in Hj as [-> _]. simpl in Hat.
  unfold forecast_at in Hat.
  destruct (Upstream.time first !! i) as [entry0|]; [|done].
  split.
  - exists entry0. split; [done|]. by destruct (fill_times _ _ _ _ Hat) as [-> ->].
  - intros fd. pose proof (fill_read fd _ _ _ _ Hat) as Hrd.
    destruct (last _); [done|]. rewrite Hrd. by destruct fd.
Qed.

Lemma getWeather_routes_fields_witness :
  ∃ f, forecasts_of
         (getWeather (VStr "key") (always (reply_with [Wx_two; PoP_two]))
            (VStr "高雄市") initial_world).1 !! 1%nat = Some f ∧
       read Weather f = "多雲" ∧ read Rain f = "30%" ∧ read MinTemp f = "".
Proof.
  destruct (getWeather (VStr "key") (always (reply_with [Wx_two; PoP_two]))
              (VStr "高雄市") initial_world) as [o w'] eqn:Hrun.
  assert (Ho : ∃ report, o = Return report).
  { vm_compute in Hrun. injection Hrun as <- _. eauto. }
  destruct Ho as [report ->].
  destruct (getWeather_routes_fields (VStr "key")
              (always (reply_with [Wx_two; PoP_two])) (VStr "高雄市")
              (reply_with [Wx_two; PoP_two]) initial_world
              {| Upstream.locationName := "高雄市";
                 Upstream.weatherElement := [Wx_two; PoP_two] |} Wx_two
              report w' eq_refl eq_refl eq_refl eq_refl Hrun) as [Hfields _].
  assert (Hf : ∃ f, forecasts report !! 1%nat = Some f).
  { vm_compute in Hrun. injection Hrun as <- _. eauto. }
  destruct Hf as [f Hf]. exists f. split; [exact Hf|].
  destruct (Hfields 1%nat f Hf) as [_ Hfd].
  pose proof (Hfd Weather) as HW. pose proof (Hfd Rain) as HR.
  pose proof (Hfd MinTemp) as HM.
  vm_compute in HW, HR, HM |- *.
  destruct HW as (e1 & [= <-] & HW). destruct HR as (e2 & [= <-] & HR).
  split; [exact HW|]. split; [exact HR|exact HM].
Defined.

(** C5. With no credential ([CWA_API_KEY] undefined, or the empty string),
    [getWeather] throws the object with status 500 and the fixed message,
    for every location, and leaves the world as it was: nothing was sent
    to the provider. *)
Theorem getWeather_without_key key upstream location w :
  truthy key = false →
  getWeather key upstream location w =
    (Throw (ThrownObject 500 "伺服器設定錯誤" "請在 .env 檔案中設定 CWA_API_KEY"), w) ∧
  sent (getWeather key upstream location w).2 = sent w.
Proof.
  intros Hkey. unfold getWeather. by rewrite Hkey.
Qed.

Lemma getWeather_without_key_witness :
  getWeather VUndefined (always (reply_with [Wx_two; PoP_two])) (VStr "高雄市")
    initial_world
  = (Throw (ThrownObject 500 "伺服器設定錯誤" "請在 .env 檔案中設定 CWA_API_KEY"),
     initial_world).
Proof.
  apply (getWeather_without_key VUndefined). reflexivity.
Defined.

(** C6. When the credential is set and the upstream reply has an empty
    list of location records, [getWeather] throws the object with status
    404 whose message contains the requested location, and returns no
    report; the one request to the provider has been sent. *)
Theorem getWeather_empty_location_list key upstream location response w :
  truthy key = true →
  upstream (the_request key location) = inr response →
  Upstream.location (Upstream.records (Upstream.data response)) = [] →
  getWeather key upstream location w =
    (Throw (ThrownObject 404 "查無資料"
              ("無法取得 " +:+ ToString (store w) (default_location location)
               +:+ " 的天氣資料")),
     after_request key location w) ∧
  (∀ name, location = VStr name →
     ToString (store w) (default_location location) = name).
Proof.
  intros Hkey Hreply Hnone. split.
  - by apply (getWeather_no_record key upstream location response).
  - by intros name ->.
Qed.

Lemma getWeather_empty_location_list_witness :
  getWeather (VStr "key") (always empty_reply) (VStr "高雄市") initial_world
  = (Throw (ThrownObject 404 "查無資料" "無法取得 高雄市 的天氣資料"),
     after_request (VStr "key") (VStr "高雄市") initial_world).
Proof.
  apply (getWeather_empty_location_list (VStr "key") (always empty_reply)
           (VStr "高雄市") empty_reply initial_world); reflexivity.
Defined.

(** C8. There is a reply in which an element after the first has fewer
    time entries than the first, and on which [getWeather] throws a
    [TypeError], not one of the objects with a status nor an upstream
    error. In general, with the credential set and a reply whose first
    record has a first element, [getWeather] returns a report exactly when
    no element has fewer time entries than the first, and throws that
    [TypeError] otherwise. *)
Theorem getWeather_short_element :
  (∃ els first short,
     els !! 0%nat = Some first ∧ els !! 1%nat = Some short ∧
     (length (Upstream.time short) < length (Upstream.time first))%nat ∧
     ∀ key location w,
       truthy key = true →
       getWeather key (always (reply_with els)) location w =
         (Throw (TypeError "Cannot read properties of undefined (reading 'parameter')"),
          after_request key location w)) ∧
  (∀ key upstream location response w locationData first,
     truthy key = true →
     upstream (the_request key location) = inr response →
     Upstream.location (Upstream.records (Upstream.data response)) !! 0%nat
       = Some locationData →
     Upstream.weatherElement locationData !! 0%nat = Some first →
     ((∃ report, (getWeather key upstream location w).1 = Return report) ↔
      aligned (Upstream.weatherElement locationData) (length (Upstream.time first))) ∧
     (¬ aligned (Upstream.weatherElement locationData) (length (Upstream.time first)) →
      getWeather key upstream location w =
        (Throw (TypeError "Cannot read properties of undefined (reading 'parameter')"),
         after_request key location w))).
Proof.
  assert (Hgeneral : ∀ key upstream location response w locationData first,
     truthy key = true →
     upstream (the_request key location) = inr response →
     Upstream.location (Upstream.records (Upstream.data response)) !! 0%nat
       = Some locationData →
     Upstream.weatherElement locationData !! 0%nat = Some first →
     ((∃ report, (getWeather key upstream location w).1 = Return report) ↔
      aligned (Upstream.weatherElement locationData) (length (Upstream.time first))) ∧
     (¬ aligned (Upstream.weatherElement locationData) (length (Upstream.time first)) →
      getWeather key upstream location w =
        (Throw (TypeError "Cannot read properties of undefined (reading 'parameter')"),
         after_request key location w))).
  { intros key upstream location response w locationData first
      Hkey Hreply Hrecord Hfirst.
    rewrite (getWeather_reply _ _ _ _ Hkey Hreply w _ _ Hrecord Hfirst).
    rewrite <- forecasts_is_Some.
    destruct (mapM _ _) as [fs|]; simpl.
    - split; [split; eauto|]. intros []. eauto.
    - split; [|done]. split; [by intros [? ?]|by intros [? ?]]. }
  split; [|exact Hgeneral].
  exists [Wx_two; PoP_one], Wx_two, PoP_one.
  split; [done|]. split; [done|]. split; [simpl; lia|].
  intros key location w Hkey.
  destruct (Hgeneral key (always (reply_with [Wx_two; PoP_one])) location
              (reply_with [Wx_two; PoP_one]) w
              {| Upstream.locationName := "高雄市";
                 Upstream.weatherElement := [Wx_two; PoP_one] |} Wx_two
              Hkey eq_refl eq_refl eq_refl) as [_ Hthrow].
  apply Hthrow.
  intros Hal. specialize (Hal PoP_one). simpl in Hal.
  assert (Hin : PoP_one ∈ [Wx_two; PoP_one]) by (apply list_elem_of_In; simpl; tauto).
  specialize (Hal Hin). lia.
Qed.

Lemma getWeather_short_element_witness :
  getWeather (VStr "key") (always (reply_with [Wx_two; PoP_one])) (VStr "高雄市")
    initial_world
  = (Throw (TypeError "Cannot read properties of undefined (reading 'parameter')"),
     after_request (VStr "key") (VStr "高雄市") initial_world).
Proof.
  destruct getWeather_short_element as [_ Hgeneral].
  apply (Hgeneral (VStr "key") (always (reply_with [Wx_two; PoP_one]))
           (VStr "高雄市") (reply_with [Wx_two; PoP_one]) initial_world
           {| Upstream.locationName := "高雄市";
              Upstream.weatherElement := [Wx_two; PoP_one] |} Wx_two
           eq_refl eq_refl eq_refl eq_refl).
  intros Hal.
  assert (Hin : PoP_one ∈ [Wx_two; PoP_one]) by (apply list_elem_of_In; simpl; tauto).
  specialize (Hal PoP_one Hin). simpl in Hal. lia.
Defined.

Lemma handleGetWeather_string key upstream s w :
  registry_intact (store w) →
  handleGetWeather key upstream {| params_location := VStr s |} w =
    try_catch
      (bind (getWeather key upstream (resolution (VStr s)))
            (λ weatherData, ret {| status := 200; body := Success weatherData |}))
      (on_error) w.
Proof.
  intros Hh. unfold handleGetWeather, try_catch. cbn [params_location].
  unfold resolution.
  assert (∃ s', or_else (VStr s) (VStr "yilan") = VStr s') as [s' ->].
  { unfold or_else. destruct (truthy (VStr s)); eauto. }
  unfold bind at 1. rewrite isValidLocation_string by done.
  fold (normalize s').
  destruct (strict_neq _ VNull).
  - unfold bind at 1. rewrite getLocationName_string by done. done.
  - done.
Qed.

(** What C4 leads to at the route: for [GET /api/weather/constructor] the
    handler takes ["constructor"] for a valid code and asks the provider
    for the location named by the function [Object]. *)
Lemma constructor_route_sends_function :
  handleGetWeather (VStr "key") (always empty_reply)
    {| params_location := VStr "constructor" |} initial_world
  = (Return {| status := 404;
               body := Failure (VStr "查無資料")
                         (VStr "無法取得 function Object() { [native code] } 的天氣資料")
                         None |},
     {| store := initial_store;
        sent := [ {| rq_Authorization := VStr "key";
                     rq_locationName := VRef Object_constructor |} ] |}).
Proof.
  rewrite handleGetWeather_string by apply initial_intact. reflexivity.
Qed.

(** C10. In an intact store, with the same credential and the same
    provider, the fixed route [/api/weather/kaohsiung] answers as the
    parametrized route does for the parameter ["kaohsiung"], whatever
    parameter the fixed route was entered with; and the parametrized
    route answers for ["高雄市"] as it does for ["kaohsiung"]: both hand
    ["高雄市"] to [getWeather]. Responses and requests sent are the same. *)
Theorem kaohsiung_routes_agree key upstream req w :
  registry_intact (store w) →
  get_api_weather_kaohsiung key upstream req w
    = get_api_weather_location key upstream {| params_location := VStr "kaohsiung" |} w ∧
  get_api_weather_location key upstream {| params_location := VStr "高雄市" |} w
    = get_api_weather_location key upstream {| params_location := VStr "kaohsiung" |} w ∧
  resolution (VStr "kaohsiung") = VStr "高雄市" ∧
  resolution (VStr "高雄市") = VStr "高雄市".
Proof.
  intros Hh. split; [reflexivity|]. split; [|split; reflexivity].
  unfold get_api_weather_location. by rewrite !handleGetWeather_string.
Qed.

Lemma kaohsiung_routes_agree_witness :
  get_api_weather_location (VStr "key") (always (reply_with [Wx_two; PoP_two]))
    {| params_location := VStr "高雄市" |} initial_world
  = get_api_weather_kaohsiung (VStr "key") (always (reply_with [Wx_two; PoP_two]))
      {| params_location := VUndefined |} initial_world.
Proof.
  assert (Hintact : registry_intact (store initial_world))
    by (unfold registry_intact; simpl; reflexivity).
  destruct (kaohsiung_routes_agree (VStr "key")
              (always (reply_with [Wx_two; PoP_two]))
              {| params_location := VUndefined |} initial_world Hintact)
    as (Hfixed & Hnative & _).
  rewrite Hfixed. exact Hnative.
Defined.

(** C3, as stated, fails: the table has 21 entries, and [total] is 21. *)
Lemma locations_total_not_22 :
  ¬ (listing_total (get_api_locations initial_world).1 = Some (length locations) ∧
     length locations = 22%nat).
Proof. intros [_ Hlen]. vm_compute in Hlen. discriminate Hlen. Qed.

(** C3, amended. In an intact store, [GET /api/locations] answers with
    status 200 and a listing whose [total] is the number of entries of the
    table, which is 21; the listing carries the 21 codes in source order
    and the 21 entries. *)
Theorem get_api_locations_total w :
  registry_intact (store w) →
  ∃ w',
    get_api_locations w =
      (Return {| status := 200;
                 body := Listing (length locations)
                           ((λ kv, (kv.1, VStr kv.2)) <$> locations)
                           locations.*1 |}, w') ∧
    length locations = 21%nat.
Proof.
  intros Hh. unfold get_api_locations.
  unfold bind at 1. rewrite getAllLocationCodes_intact by done.
  unfold bind at 1. rewrite getAllLocations_intact by done.
  assert (Hh' : registry_intact
                  (<[fresh (dom (store w)) := spread locations_object]> (store w))).
  { apply insert_subseteq_r; [by apply fresh_not_initial|done]. }
  unfold bind at 1. rewrite getAllLocationCodes_intact by done.
  unfold bind at 1. unfold serialize. cbn [store].
  rewrite lookup_insert_eq. eexists. split; [|reflexivity].
  unfold ret. rewrite length_fmap. reflexivity.
Qed.

Lemma get_api_locations_total_witness :
  listing_total (get_api_locations initial_world).1 = Some 21%nat.
Proof.
  assert (Hintact : registry_intact (store initial_world))
    by (unfold registry_intact; simpl; reflexivity).
  destruct (get_api_locations_total initial_world Hintact) as (w' & Hrun & Hlen).
  rewrite Hrun. simpl. f_equal.
Defined.

End ServerFacts.

(* ===================================================================== *)
(** ** Further properties of the registry *)
(* ===================================================================== *)

Module RegistryLaws.
Import JS Locations RegistrySpec StringFacts RegistryFacts.

Lemma is_upper_lower_ascii a : is_upper (lower_ascii a) = false.
Proof. destruct a as [[] [] [] [] [] [] [] []]; reflexivity. Qed.

Lemma no_upper_toLowerCase s : no_upper (toLowerCase s) = true.
Proof.
  assert (H : ∀ (n : nat) s, (String.length s ≤ n)%nat →
            no_upper (toLowerCase s) = true);
    [|by apply (H (String.length s))].
  clear s. induction n as [|n IH]; intros s Hn.
  { destruct s; simpl in Hn; [done|lia]. }
  destruct s as [|a r]; [done|]. simpl in Hn. rewrite toLowerCase_cons.
  assert (Hr : no_upper (toLowerCase r) = true) by (apply IH; lia).
  assert (Hplain : no_upper (String (lower_ascii a) (toLowerCase r)) = true).
  { cbn [no_upper]. by rewrite is_upper_lower_ascii, Hr. }
  destruct r as [|b [|c r']]; try done.
  destruct (is_kelvin a b c); [|done].
  cbn [no_upper]. rewrite IH by (simpl in Hn; lia). done.
Qed.

Lemma no_upper_tail a r : no_upper (String a r) = true → no_upper r = true.
Proof. cbn [no_upper]. by intros [_ ?]%andb_true_iff. Qed.

Lemma no_upper_trimStart s : no_upper s = true → no_upper (trimStart s) = true.
Proof.
  assert (H : ∀ (n : nat) s, (String.length s ≤ n)%nat →
            no_upper s = true → no_upper (trimStart s) = true);
    [|by apply (H (String.length s))].
  clear s. induction n as [|n IH]; intros s Hn Hs.
  { destruct s; simpl in Hn; [done|lia]. }
  destruct s as [|a r]; [done|]. simpl in Hn. rewrite trimStart_cons.
  pose proof (no_upper_tail _ _ Hs) as Hr.
  destruct (is_ws1 a); [apply IH; [lia|done]|].
  destruct r as [|b r1]; [done|].
  pose proof (no_upper_tail _ _ Hr) as Hr1.
  destruct (is_ws2 a b); [apply IH; [simpl in Hn; lia|done]|].
  destruct r1 as [|c r2]; [done|].
  pose proof (no_upper_tail _ _ Hr1) as Hr2.
  destruct (is_ws3 a b c); [apply IH; [simpl in Hn; lia|done]|done].
Qed.

Lemma no_upper_trimEnd s : no_upper s = true → no_upper (trimEnd s) = true.
Proof.
  induction s as [|a r IH]; [done|]. intros Hs. cbn [trimEnd].
  destruct (all_ws (String a r)); [done|].
  cbn [no_upper] in *. apply andb_true_iff in Hs as [Ha Hr].
  by rewrite Ha, IH.
Qed.

Lemma no_upper_normalize s : no_upper (normalize s) = true.
Proof.
  unfold normalize, trim.
  apply no_upper_trimEnd, no_upper_trimStart, no_upper_toLowerCase.
Qed.

Lemma assoc_Some_elem {A} k (l : list (string * A)) a :
  assoc k l = Some a → (k, a) ∈ l.
Proof.
  induction l as [|[k' a'] l IH]; [done|]. simpl.
  destruct (String.eqb_spec k k') as [->|Hne].
  - intros [= ->]. apply list_elem_of_here.
  - intros H. apply list_elem_of_further. auto.
Qed.

Lemma assoc_None_not_elem {A} k (l : list (string * A)) :
  assoc k l = None → k ∉ l.*1.
Proof.
  induction l as [|[k' a'] l IH]; simpl.
  - intros _. apply not_elem_of_nil.
  - destruct (String.eqb_spec k k') as [->|Hne]; [done|].
    intros H. apply not_elem_of_cons. auto.
Qed.

(** Every entry of the table is a name, and a truthy one. *)
Lemma table_entries_truthy k p :
  (k, p) ∈ props locations_object →
  k ∈ locations.*1 ∧ truthy (own_value locations_object p) = true.
Proof.
  intros Hin. apply list_elem_of_In in Hin. vm_compute in Hin.
  repeat (destruct Hin as [[= <- <-]|Hin];
          [split; [apply list_elem_of_In; vm_compute; tauto|reflexivity]|]).
  destruct Hin.
Qed.

(** What [Object.prototype] holds is truthy; of its property names only
    two are free of upper-case letters. *)
Lemma prototype_entries_truthy k p :
  (k, p) ∈ props object_prototype_object →
  truthy (own_value locations_object p) = true ∧
  (no_upper k = true → inherited_lower k).
Proof.
  intros Hin. apply list_elem_of_In in Hin. vm_compute in Hin.
  unfold inherited_lower.
  repeat (destruct Hin as [[= <- <-]|Hin];
          [split; [reflexivity|vm_compute; intros; (discriminate || tauto)]|]).
  destruct Hin.
Qed.

Lemma table_lookup_truthy_iff k :
  no_upper k = true →
  truthy (table_lookup k) = true ↔ registered k ∨ inherited_lower k.
Proof.
  intros Hk. unfold table_lookup, registered.
  destruct (assoc k (props locations_object)) as [p|] eqn:E.
  { apply assoc_Some_elem, table_entries_truthy in E as [Hin ->]. tauto. }
  apply assoc_None_not_elem in E.
  replace ((props locations_object).*1) with (locations.*1) in E by reflexivity.
  destruct (assoc k (props object_prototype_object)) as [p|] eqn:E2.
  { apply assoc_Some_elem, prototype_entries_truthy in E2 as [-> Hlow]. tauto. }
  apply assoc_None_not_elem in E2. split; [done|].
  intros [Hreg | [-> | ->]]; [done| |]; exfalso; apply E2;
    apply list_elem_of_In; vm_compute; tauto.
Qed.

(** X1. [isValidLocation] answers [true] exactly for the strings whose
    normal form is a key of the table or one of the two inherited names
    "constructor" and "__proto__"; it never throws on a string and leaves
    the world as it is. *)
Theorem isValidLocation_iff w s :
  registry_intact (store w) →
  ∃ b, isValidLocation (VStr s) w = (Return b, w) ∧
       (b = true ↔ registered (normalize s) ∨ inherited_lower (normalize s)).
Proof.
  intros Hh. rewrite isValidLocation_string by done. eexists. split; [done|].
  fold (normalize s).
  rewrite <- (table_lookup_truthy_iff _ (no_upper_normalize s)).
  destruct (String.eqb_spec s "") as [->|Hs]; [done|].
  unfold or_else, strict_neq.
  destruct (table_lookup (normalize s)) as [| |t|l] eqn:E; simpl; try done.
  destruct (String.eqb t ""); simpl; by rewrite ?bool_decide_eq_true, ?bool_decide_eq_false.
Qed.

Lemma isValidLocation_iff_witness :
  isValidLocation (VStr " Yilan ") initial_world = (Return true, initial_world).
Proof.
  assert (Hintact : registry_intact (store initial_world))
    by (unfold registry_intact; simpl; reflexivity).
  destruct (isValidLocation_iff initial_world " Yilan " Hintact) as (b & Hrun & Hb).
  rewrite Hrun. f_equal. f_equal. apply Hb. left.
  unfold registered. apply list_elem_of_In. vm_compute. tauto.
Defined.



(** X3. In an intact store the three views of the registry agree: the keys
    of the mapping [getAllLocations] returns are the codes
    [getAllLocationCodes] lists, in the same order; and for every entry
    of the mapping, reading the mapping at the code, [getLocationName] of
    the code, and the entry give the same name, and [isValidLocation]
    accepts the code. *)
Theorem registry_views_agree w :
  registry_intact (store w) →
  ∃ r w' o,
    getAllLocations w = (Return r, w') ∧
    store w' !! r = Some o ∧
    getAllLocationCodes w' = (Return (props o).*1, w') ∧
    ∀ c p, (c, p) ∈ props o →
      ∃ name,
        own_value o p = VStr name ∧
        get_prop r c w' = (Return (VStr name), w') ∧
        getLocationName (VStr c) w' = (Return (VStr name), w') ∧
        isValidLocation (VStr c) w' = (Return true, w').
Proof.
  intros Hh. rewrite getAllLocations_intact by done.
  set (r := fresh (dom (store w))).
  assert (Hh' : registry_intact (<[r := spread locations_object]> (store w))).
  { apply insert_subseteq_r; [by apply fresh_not_initial|done]. }
  eexists r, _, (spread locations_object). split; [done|]. cbn [store].
  split; [apply lookup_insert_eq|].
  split; [by rewrite getAllLocationCodes_intact|].
  intros c p Hin.
  rewrite getLocationName_string, isValidLocation_string by done.
  unfold get_prop. cbn [store]. rewrite lookup_insert_eq.
  unfold chain_bound. cbn [Get]. rewrite lookup_insert_eq.
  apply list_elem_of_In in Hin. vm_compute in Hin.
  repeat (destruct Hin as [[= <- <-]|Hin]; [eexists; repeat split; reflexivity|]).
  destruct Hin.
Qed.

Lemma registry_views_agree_witness :
  ∃ r w' o,
    getAllLocations initial_world = (Return r, w') ∧
    store w' !! r = Some o ∧
    getAllLocationCodes w' = (Return (props o).*1, w').
Proof.
  assert (Hintact : registry_intact (store initial_world))
    by (unfold registry_intact; simpl; reflexivity).
  destruct (registry_views_agree initial_world Hintact)
    as (r & w' & o & Hrun & Ho & Hcodes & _).
  exists r, w', o. split; [exact Hrun|]. split; [exact Ho|exact Hcodes].
Defined.

End RegistryLaws.

(* ===================================================================== *)
(** ** Further properties of [getWeather] and of [handleGetWeather] *)
(* ===================================================================== *)

Module ServerLaws.
Import JS Locations Server RegistrySpec ServerSpec StringFacts RegistryFacts
  ServerFacts RegistryLaws.

(** With the credential set, [getWeather] is the request followed by
    [report_of] on the reply. *)
Lemma getWeather_eq key upstream location w :
  truthy key = true →
  getWeather key upstream location w =
    (match upstream (the_request key location) with
     | inl e => Throw (ThrownAxios e)
     | inr response => report_of (store w) (default_location location) response
     end, after_request key location w).
Proof.
  intros Hkey. unfold getWeather. rewrite Hkey. cbn [negb].
  unfold bind at 1. unfold axios_get. fold (the_request key location).
  fold (after_request key location w).
  destruct (upstream (the_request key location)) as [e|response]; [done|].
  unfold report_of.
  destruct (Upstream.location _ !! 0%nat) as [locationData|]; [|done].
  destruct (Upstream.weatherElement locationData !! 0%nat) as [first|] eqn:Hfirst;
    [|done].
  unfold bind. rewrite (for_loop_period _ first) by (done || lia).
  by destruct (mapM _ _).
Qed.

Lemma on_error_answers e w :
  ∃ res, on_error e w = (Return res, w) ∧
         ∃ err msg details, body res = Failure err msg details.
Proof.
  destruct e as [st err msg|e|msg]; simpl.
  - destruct (st =? 0)%nat; eauto 10.
  - destruct (ae_status e) as [[|st]|], (ae_response e); eauto 10.
  - eauto 10.
Qed.


Lemma handleGetWeather_eq key upstream s w :
  registry_intact (store w) →
  truthy key = true →
  handleGetWeather key upstream {| params_location := VStr s |} w =
    match
      match upstream (the_request key (resolution (VStr s))) with
      | inl e => Throw (ThrownAxios e)
      | inr response =>
          report_of (store w) (default_location (resolution (VStr s))) response
      end
    with
    | Return weatherData =>
        (Return {| status := 200; body := Success weatherData |},
         after_request key (resolution (VStr s)) w)
    | Throw e => on_error e (after_request key (resolution (VStr s)) w)
    | Unresolved => (Unresolved, after_request key (resolution (VStr s)) w)
    end.
Proof.
  intros Hh Hkey. rewrite handleGetWeather_string by done.
  unfold try_catch, bind. rewrite getWeather_eq by done.
  by destruct (match upstream _ with inl _ => _ | inr _ => _ end).
Qed.

Lemma handleGetWeather_falsy key upstream p w :
  truthy p = false →
  handleGetWeather key upstream {| params_location := p |} w =
    handleGetWeather key upstream {| params_location := VStr "yilan" |} w.
Proof.
  intros Hp.
  assert (Heq : or_else p (VStr "yilan") = or_else (VStr "yilan") (VStr "yilan")).
  { unfold or_else. by rewrite Hp. }
  unfold handleGetWeather. cbn [params_location]. by rewrite Heq.
Qed.

(** X4. With the credential set, [getWeather] sends exactly one request,
    whatever comes of it (report, 404, upstream failure, [TypeError]): the
    request carries the credential and the location asked for (the default
    when none was given); the store is as before. *)
Theorem getWeather_sends_one_request key upstream location w :
  truthy key = true →
  store (getWeather key upstream location w).2 = store w ∧
  sent (getWeather key upstream location w).2 =
    (sent w ++ [ {| rq_Authorization := key;
                    rq_locationName := default_location location |} ])%list.
Proof. intros Hkey. by rewrite getWeather_eq. Qed.

Lemma getWeather_sends_one_request_witness :
  sent (getWeather (VStr "key") (always empty_reply) VUndefined initial_world).2
  = [ {| rq_Authorization := VStr "key"; rq_locationName := VStr "宜蘭縣" |} ].
Proof.
  apply (getWeather_sends_one_request (VStr "key") (always empty_reply)
           VUndefined initial_world). reflexivity.
Defined.

(** X5. [getWeather] reads the first location record only: two replies
    with the same data set description and the same first record (or both
    without one) give the same outcome, whatever records follow. *)
Theorem getWeather_first_record_only key upstream1 upstream2 location r1 r2 w :
  truthy key = true →
  upstream1 (the_request key location) = inr r1 →
  upstream2 (the_request key location) = inr r2 →
  Upstream.datasetDescription (Upstream.records (Upstream.data r1))
    = Upstream.datasetDescription (Upstream.records (Upstream.data r2)) →
  Upstream.location (Upstream.records (Upstream.data r1)) !! 0%nat
    = Upstream.location (Upstream.records (Upstream.data r2)) !! 0%nat →
  getWeather key upstream1 location w = getWeather key upstream2 location w.
Proof.
  intros Hkey H1 H2 Hdesc Hhead. rewrite !getWeather_eq by done.
  rewrite H1, H2. unfold report_of. by rewrite Hdesc, Hhead.
Qed.

Lemma getWeather_first_record_only_witness :
  getWeather (VStr "key") (always two_records) (VStr "高雄市") initial_world
  = getWeather (VStr "key") (always (reply_with [Wx_two; PoP_two]))
      (VStr "高雄市") initial_world.
Proof.
  apply (getWeather_first_record_only (VStr "key") (always two_records)
           (always (reply_with [Wx_two; PoP_two])) (VStr "高雄市")
           two_records (reply_with [Wx_two; PoP_two]) initial_world);
    reflexivity.
Defined.

Lemma forecast_at_times els first i f :
  forecast_at els first i = Some f →
  ∃ entry, Upstream.time first !! i = Some entry ∧
    startTime f = Upstream.startTime entry ∧
    endTime f = Upstream.endTime entry.
Proof.
  unfold forecast_at. destruct (Upstream.time first !! i) as [entry|]; [|done].
  intros [-> ->]%fill_times. eauto.
Qed.

(** X6. A report that [getWeather] returns names the city as the first
    record does, carries the data set description as its update time, and
    its forecasts have, in order, the start and end times of the time
    series of the first weather element. *)
Theorem getWeather_report_times key upstream location response w
    locationData first report w' :
  truthy key = true →
  upstream (the_request key location) = inr response →
  Upstream.location (Upstream.records (Upstream.data response)) !! 0%nat
    = Some locationData →
  Upstream.weatherElement locationData !! 0%nat = Some first →
  getWeather key upstream location w = (Return report, w') →
  city report = Upstream.locationName locationData ∧
  updateTime report
    = Upstream.datasetDescription (Upstream.records (Upstream.data response)) ∧
  startTime <$> forecasts report = Upstream.startTime <$> Upstream.time first ∧
  endTime <$> forecasts report = Upstream.endTime <$> Upstream.time first.
Proof.
  intros Hkey Hreply Hrecord Hfirst. rewrite getWeather_eq by done.
  rewrite Hreply. unfold report_of. rewrite Hrecord, Hfirst.
  destruct (mapM _ _) as [fs|] eqn:E; [|done].
  intros [= <- _]. cbn [city updateTime forecasts].
  split; [done|]. split; [done|].
  pose proof (length_mapM _ _ _ E) as Hlen. rewrite length_seq in Hlen.
  apply mapM_Some in E.
  assert (Hat : ∀ i f, fs !! i = Some f →
            ∃ entry, Upstream.time first !! i = Some entry ∧
              startTime f = Upstream.startTime entry ∧
              endTime f = Upstream.endTime entry).
  { intros i f Hf.
    destruct (Forall2_lookup_r _ _ _ _ _ E Hf) as (j & Hj & Hfj).
    apply lookup_seq in Hj as [-> _]. by apply forecast_at_times in Hfj. }
  split; apply list_eq; intros i; rewrite !list_lookup_fmap;
    destruct (fs !! i) as [f|] eqn:Hf.
  - destruct (Hat i f Hf) as (entry & Ht & Hs & _). rewrite Ht. simpl.
    by rewrite Hs.
  - apply lookup_ge_None in Hf. rewrite <- Hlen in Hf.
    apply lookup_ge_None in Hf. by rewrite Hf.
  - destruct (Hat i f Hf) as (entry & Ht & _ & He). rewrite Ht. simpl.
    by rewrite He.
  - apply lookup_ge_None in Hf. rewrite <- Hlen in Hf.
    apply lookup_ge_None in Hf. by rewrite Hf.
Qed.

Lemma getWeather_report_times_witness :
  ∃ report,
    (getWeather (VStr "key") (always (reply_with [Wx_two; PoP_two]))
       (VStr "高雄市") initial_world).1 = Return report ∧
    city report = "高雄市" ∧
    startTime <$> forecasts report = ["06:00"; "18:00"].
Proof.
  destruct (getWeather (VStr "key") (always (reply_with [Wx_two; PoP_two]))
              (VStr "高雄市") initial_world) as [o w'] eqn:Hrun.
  assert (Ho : ∃ report, o = Return report).
  { vm_compute in Hrun. injection Hrun as <- _. eauto. }
  destruct Ho as [report ->].
  destruct (getWeather_report_times (VStr "key")
              (always (reply_with [Wx_two; PoP_two])) (VStr "高雄市")
              (reply_with [Wx_two; PoP_two]) initial_world
              {| Upstream.locationName := "高雄市";
                 Upstream.weatherElement := [Wx_two; PoP_two] |} Wx_two
              report w' eq_refl eq_refl eq_refl eq_refl Hrun)
    as (Hcity & _ & Hstart & _).
  exists report. split; [reflexivity|]. split; [exact Hcity|exact Hstart].
Defined.

(** X7. When the first location record has no weather element at all,
    [getWeather] throws the [TypeError] of reading [time] of [undefined],
    after the request. *)
Theorem getWeather_no_elements key upstream location response w locationData :
  truthy key = true →
  upstream (the_request key location) = inr response →
  Upstream.location (Upstream.records (Upstream.data response)) !! 0%nat
    = Some locationData →
  Upstream.weatherElement locationData = [] →
  getWeather key upstream location w =
    (Throw (TypeError "Cannot read properties of undefined (reading 'time')"),
     after_request key location w).
Proof.
  intros Hkey Hreply Hrecord Hnone. rewrite getWeather_eq by done.
  rewrite Hreply. unfold report_of. by rewrite Hrecord, Hnone.
Qed.

Lemma getWeather_no_elements_witness :
  getWeather (VStr "key") (always (reply_with [])) (VStr "高雄市") initial_world
  = (Throw (TypeError "Cannot read properties of undefined (reading 'time')"),
     after_request (VStr "key") (VStr "高雄市") initial_world).
Proof.
  apply (getWeather_no_elements (VStr "key") (always (reply_with []))
           (VStr "高雄市") (reply_with []) initial_world
           {| Upstream.locationName := "高雄市"; Upstream.weatherElement := [] |});
    reflexivity.
Defined.

(** *** The handler *)

Lemma handleGetWeather_world key upstream s w :
  registry_intact (store w) →
  truthy key = true →
  (handleGetWeather key upstream {| params_location := VStr s |} w).2
    = after_request key (resolution (VStr s)) w.
Proof.
  intros Hh Hkey. rewrite handleGetWeather_eq by done.
  destruct (match upstream _ with inl _ => _ | inr _ => _ end) as [d|e|]; try done.
  by destruct (on_error_answers e (after_request key (resolution (VStr s)) w))
    as (res & -> & _).
Qed.






(** X10. Without a credential the handler answers every string parameter
    with status 500 and the fixed configuration message, and nothing is
    sent to the provider. *)
Theorem handleGetWeather_without_key key upstream s w :
  registry_intact (store w) →
  truthy key = false →
  handleGetWeather key upstream {| params_location := VStr s |} w =
    (Return {| status := 500;
               body := Failure (VStr "伺服器設定錯誤")
                         (VStr "請在 .env 檔案中設定 CWA_API_KEY") None |}, w).
Proof.
  intros Hh Hkey. rewrite handleGetWeather_string by done.
  unfold try_catch, bind, getWeather. by rewrite Hkey.
Qed.

Lemma handleGetWeather_without_key_witness :
  handleGetWeather (VStr "") (always empty_reply)
    {| params_location := VStr "taipei" |} initial_world
  = (Return {| status := 500;
               body := Failure (VStr "伺服器設定錯誤")
                         (VStr "請在 .env 檔案中設定 CWA_API_KEY") None |},
     initial_world).
Proof.
  apply (handleGetWeather_without_key (VStr "") (always empty_reply) "taipei"
           initial_world); [|reflexivity].
  unfold registry_intact. simpl. reflexivity.
Defined.

(** X11. When the provider's reply has no location record, the handler
    answers with status 404, and the message names the location that was
    asked of the provider: the resolved name, not the code of the route. *)
Theorem handleGetWeather_not_found key upstream s response w :
  registry_intact (store w) →
  truthy key = true →
  upstream (the_request key (resolution (VStr s))) = inr response →
  Upstream.location (Upstream.records (Upstream.data response)) = [] →
  handleGetWeather key upstream {| params_location := VStr s |} w =
    (Return {| status := 404;
               body := Failure (VStr "查無資料")
                         (VStr ("無法取得 "
                                +:+ ToString (store w)
                                      (default_location (resolution (VStr s)))
                                +:+ " 的天氣資料")) None |},
     after_request key (resolution (VStr s)) w).
Proof.
  intros Hh Hkey Hreply Hnone. rewrite handleGetWeather_eq by done.
  rewrite Hreply. unfold report_of. by rewrite Hnone.
Qed.

Lemma handleGetWeather_not_found_witness :
  handleGetWeather (VStr "key") (always empty_reply)
    {| params_location := VStr "taipei" |} initial_world
  = (Return {| status := 404;
               body := Failure (VStr "查無資料")
                         (VStr "無法取得 台北市 的天氣資料") None |},
     after_request (VStr "key") (VStr "台北市") initial_world).
Proof.
  apply (handleGetWeather_not_found (VStr "key") (always empty_reply) "taipei"
           empty_reply initial_world); try reflexivity.
  unfold registry_intact. simpl. reflexivity.
Defined.

(** X12. When the first record of the reply has no weather element, or has
    an element with fewer time entries than the first, the [TypeError] of
    [getWeather] is caught and the handler answers with status 500 and
    the generic message. *)
Theorem handleGetWeather_malformed_reply key upstream s response w locationData :
  registry_intact (store w) →
  truthy key = true →
  upstream (the_request key (resolution (VStr s))) = inr response →
  Upstream.location (Upstream.records (Upstream.data response)) !! 0%nat
    = Some locationData →
  (∀ first, Upstream.weatherElement locationData !! 0%nat = Some first →
     ¬ aligned (Upstream.weatherElement locationData)
         (length (Upstream.time first))) →
  handleGetWeather key upstream {| params_location := VStr s |} w =
    (Return server_error, after_request key (resolution (VStr s)) w).
Proof.
  intros Hh Hkey Hreply Hrecord Hbad. rewrite handleGetWeather_eq by done.
  rewrite Hreply. unfold report_of. rewrite Hrecord.
  destruct (Upstream.weatherElement locationData !! 0%nat) as [first|]; [|done].
  destruct (mapM _ _) as [fs|] eqn:E; [|done].
  destruct (Hbad first eq_refl). apply forecasts_is_Some. by rewrite E.
Qed.

Lemma handleGetWeather_malformed_reply_witness :
  handleGetWeather (VStr "key") (always (reply_with [Wx_two; PoP_one]))
    {| params_location := VStr "kaohsiung" |} initial_world
  = (Return server_error, after_request (VStr "key") (VStr "高雄市") initial_world).
Proof.
  apply (handleGetWeather_malformed_reply (VStr "key")
           (always (reply_with [Wx_two; PoP_one])) "kaohsiung"
           (reply_with [Wx_two; PoP_one]) initial_world
           {| Upstream.locationName := "高雄市";
              Upstream.weatherElement := [Wx_two; PoP_one] |});
    try reflexivity.
  - unfold registry_intact. simpl. reflexivity.
  - intros first [= <-] Hal.
    assert (Hin : PoP_one ∈ [Wx_two; PoP_one])
      by (apply list_elem_of_In; simpl; tauto).
    specialize (Hal PoP_one Hin). simpl in Hal. lia.
Defined.



(** X14. The [catch] block looks at [error.status] first: when the error
    the provider's call fails with carries a truthy [status], the handler
    answers with that status and the error's own message, with no [error]
    field and no details, even when an HTTP reply is attached. *)
Theorem handleGetWeather_error_status_first key upstream s e st w :
  registry_intact (store w) →
  truthy key = true →
  upstream (the_request key (resolution (VStr s))) = inl e →
  ae_status e = Some (S st) →
  handleGetWeather key upstream {| params_location := VStr s |} w =
    (Return {| status := S st;
               body := Failure VUndefined (VStr (ae_message e)) None |},
     after_request key (resolution (VStr s)) w).
Proof.
  intros Hh Hkey Hfail Hstatus. rewrite handleGetWeather_eq by done.
  rewrite Hfail. unfold on_error. by rewrite Hstatus.
Qed.

Lemma handleGetWeather_error_status_first_witness :
  handleGetWeather (VStr "key") (failing http_401_with_status)
    {| params_location := VStr "taipei" |} initial_world
  = (Return {| status := 401;
               body := Failure VUndefined
                         (VStr "Request failed with status code 401") None |},
     after_request (VStr "key") (VStr "台北市") initial_world).
Proof.
  apply (handleGetWeather_error_status_first (VStr "key")
           (failing http_401_with_status) "taipei" http_401_with_status 400
           initial_world); try reflexivity.
  unfold registry_intact. simpl. reflexivity.
Defined.

(** X15. When the provider's call fails without an HTTP reply (and without
    a truthy [status]), the handler answers with status 500 and the
    generic message. *)
Theorem handleGetWeather_network_failure key upstream s e w :
  registry_intact (store w) →
  truthy key = true →
  upstream (the_request key (resolution (VStr s))) = inl e →
  no_status e →
  ae_response e = None →
  handleGetWeather key upstream {| params_location := VStr s |} w =
    (Return server_error, after_request key (resolution (VStr s)) w).
Proof.
  intros Hh Hkey Hfail Hstatus Hresp. rewrite handleGetWeather_eq by done.
  rewrite Hfail. unfold on_error. rewrite Hresp.
  by destruct Hstatus as [-> | ->].
Qed.

Lemma handleGetWeather_network_failure_witness :
  handleGetWeather (VStr "key") (failing network_down)
    {| params_location := VStr "taipei" |} initial_world
  = (Return server_error, after_request (VStr "key") (VStr "台北市") initial_world).
Proof.
  apply (handleGetWeather_network_failure (VStr "key") (failing network_down)
           "taipei" network_down initial_world); try reflexivity.
  - unfold registry_intact. simpl. reflexivity.
  - left. reflexivity.
Defined.

(** X16. A missing route parameter ([undefined], [null] or the empty
    string) is handled as the code "yilan": with the credential set, the
    one request sent asks for "宜蘭縣". *)
Theorem handleGetWeather_default_location key upstream p w :
  registry_intact (store w) →
  truthy key = true →
  truthy p = false →
  handleGetWeather key upstream {| params_location := p |} w =
    handleGetWeather key upstream {| params_location := VStr "yilan" |} w ∧
  sent (handleGetWeather key upstream {| params_location := p |} w).2 =
    (sent w ++ [ {| rq_Authorization := key;
                    rq_locationName := VStr "宜蘭縣" |} ])%list.
Proof.
  intros Hh Hkey Hp. rewrite handleGetWeather_falsy by done.
  split; [done|]. by rewrite handleGetWeather_world.
Qed.

Lemma handleGetWeather_default_location_witness :
  sent (handleGetWeather (VStr "key") (always empty_reply)
          {| params_location := VUndefined |} initial_world).2
  = [ {| rq_Authorization := VStr "key"; rq_locationName := VStr "宜蘭縣" |} ].
Proof.
  apply (handleGetWeather_default_location (VStr "key") (always empty_reply)
           VUndefined initial_world); try reflexivity.
  unfold registry_intact. simpl. reflexivity.
Defined.




(** X18. A non-empty route parameter whose normal form is neither a
    registered code nor one of the two inherited names is handed to the
    provider as it was given, case and white space included. *)
Theorem handleGetWeather_unknown_verbatim key upstream s w :
  registry_intact (store w) →
  truthy key = true →
  s ≠ "" →
  ¬ registered (normalize s) →
  ¬ inherited_lower (normalize s) →
  resolution (VStr s) = VStr s ∧
  sent (handleGetWeather key upstream {| params_location := VStr s |} w).2 =
    (sent w ++ [ {| rq_Authorization := key; rq_locationName := VStr s |} ])%list.
Proof.
  intros Hh Hkey Hs Hreg Hinh.
  assert (Hres : resolution (VStr s) = VStr s).
  { apply String.eqb_neq in Hs.
    unfold resolution. unfold or_else at 1. cbn [truthy]. rewrite Hs.
    cbn [negb]. rewrite Hs.
    assert (Hf : truthy (table_lookup (normalize s)) = false).
    { destruct (truthy (table_lookup (normalize s))) eqn:E; [|done].
      apply (table_lookup_truthy_iff _ (no_upper_normalize s)) in E. tauto. }
    unfold or_else. rewrite Hf. unfold strict_neq.
    rewrite bool_decide_eq_true_2 by done. cbn [negb truthy]. by rewrite Hs. }
  split; [done|]. rewrite handleGetWeather_world by done. by rewrite Hres.
Qed.

Lemma handleGetWeather_unknown_verbatim_witness :
  sent (handleGetWeather (VStr "key") (always empty_reply)
          {| params_location := VStr " 高雄市 " |} initial_world).2
  = [ {| rq_Authorization := VStr "key"; rq_locationName := VStr " 高雄市 " |} ].
Proof.
  apply (handleGetWeather_unknown_verbatim (VStr "key") (always empty_reply)
           " 高雄市 " initial_world); try reflexivity.
  - unfold registry_intact. simpl. reflexivity.
  - discriminate.
  - unfold registered. intros Hin. apply list_elem_of_In in Hin.
    vm_compute in Hin.
    repeat (destruct Hin as [Hin|Hin]; [discriminate Hin|]). exact Hin.
  - unfold inherited_lower. vm_compute. intros [Hc|Hc]; discriminate Hc.
Defined.

(** *** Entries beyond the first element's count *)

Lemma fill_truncate n i els f :
  (i < n)%nat → fill i (truncate n <$> els) f = fill i els f.
Proof.
  intros Hi. revert f. induction els as [|el els IH]; intros f; [done|].
  change (truncate n <$> el :: els) with (truncate n el :: (truncate n <$> els)).
  cbn [fill].
  change (Upstream.time (truncate n el)) with (take n (Upstream.time el)).
  change (Upstream.elementName (truncate n el)) with (Upstream.elementName el).
  rewrite lookup_take_lt by done.
  destruct (Upstream.time el !! i); [apply IH|done].
Qed.

(** X19. The loop runs over the indices of the first element only: entries
    that other elements have beyond that count play no part. Cutting every
    element of the first record after as many entries as the first element
    has gives the same outcome. *)
Theorem getWeather_ignores_extra_entries key upstream1 upstream2 location
    r1 r2 rec1 rec2 first w :
  truthy key = true →
  upstream1 (the_request key location) = inr r1 →
  upstream2 (the_request key location) = inr r2 →
  Upstream.datasetDescription (Upstream.records (Upstream.data r1))
    = Upstream.datasetDescription (Upstream.records (Upstream.data r2)) →
  Upstream.location (Upstream.records (Upstream.data r1)) !! 0%nat = Some rec1 →
  Upstream.location (Upstream.records (Upstream.data r2)) !! 0%nat = Some rec2 →
  Upstream.locationName rec1 = Upstream.locationName rec2 →
  Upstream.weatherElement rec1 !! 0%nat = Some first →
  Upstream.weatherElement rec2
    = truncate (length (Upstream.time first)) <$> Upstream.weatherElement rec1 →
  getWeather key upstream1 location w = getWeather key upstream2 location w.
Proof.
  intros Hkey H1 H2 Hdesc Hrec1 Hrec2 Hname Hfirst Hcut.
  rewrite !getWeather_eq by done. rewrite H1, H2. f_equal.
  unfold report_of. rewrite Hrec1, Hrec2, Hfirst, Hcut, Hdesc, Hname.
  rewrite list_lookup_fmap, Hfirst. cbn [fmap option_fmap option_map].
  set (n := length (Upstream.time first)).
  assert (Hn : length (Upstream.time (truncate n first)) = n).
  { unfold truncate. cbn [Upstream.time]. by rewrite length_take_le. }
  rewrite Hn.
  assert (Hext : mapM (forecast_at (truncate n <$> Upstream.weatherElement rec1)
                         (truncate n first)) (seq 0 n)
               = mapM (forecast_at (Upstream.weatherElement rec1) first) (seq 0 n)).
  { apply Forall_mapM_ext, Forall_forall. intros i [_ Hi]%elem_of_seq.
    simpl in Hi. unfold forecast_at.
    change (Upstream.time (truncate n first)) with (take n (Upstream.time first)).
    rewrite lookup_take_lt by done.
    destruct (Upstream.time first !! i); [|done]. by apply fill_truncate. }
  by rewrite Hext.
Qed.

Lemma getWeather_ignores_extra_entries_witness :
  getWeather (VStr "key") (always (reply_with [Wx_two; PoP_three]))
    (VStr "高雄市") initial_world
  = getWeather (VStr "key") (always (reply_with [Wx_two; PoP_two]))
      (VStr "高雄市") initial_world.
Proof.
  apply (getWeather_ignores_extra_entries (VStr "key")
           (always (reply_with [Wx_two; PoP_three]))
           (always (reply_with [Wx_two; PoP_two])) (VStr "高雄市")
           (reply_with [Wx_two; PoP_three]) (reply_with [Wx_two; PoP_two])
           {| Upstream.locationName := "高雄市";
              Upstream.weatherElement := [Wx_two; PoP_three] |}
           {| Upstream.locationName := "高雄市";
              Upstream.weatherElement := [Wx_two; PoP_two] |}
           Wx_two initial_world); reflexivity.
Defined.

(** *** The listing route *)

(** X20. In an intact store [GET /api/locations] answers with status 200
    and a listing whose codes are the keys of its mapping, in order, and
    whose total is their number; it sends nothing to the provider and
    leaves the store intact, so that the next call gives the same answer. *)
Theorem get_api_locations_repeatable w :
  registry_intact (store w) →
  ∃ total entries codes w1 w2,
    get_api_locations w =
      (Return {| status := 200; body := Listing total entries codes |}, w1) ∧
    codes = entries.*1 ∧
    total = length codes ∧
    registry_intact (store w1) ∧
    sent w1 = sent w ∧
    get_api_locations w1 =
      (Return {| status := 200; body := Listing total entries codes |}, w2).
Proof.
  assert (Hrun : ∀ w, registry_intact (store w) →
            get_api_locations w =
              (Return {| status := 200;
                         body := Listing (length locations)
                                   ((λ kv, (kv.1, VStr kv.2)) <$> locations)
                                   locations.*1 |},
               {| store := <[fresh (dom (store w)) := spread locations_object]>
                             (store w);
                  sent := sent w |}) ∧
            registry_intact
              (<[fresh (dom (store w)) := spread locations_object]> (store w))).
  { clear w. intros w Hh.
    assert (Hh' : registry_intact
                    (<[fresh (dom (store w)) := spread locations_object]> (store w))).
    { apply insert_subseteq_r; [by apply fresh_not_initial|done]. }
    split; [|done]. unfold get_api_locations.
    unfold bind at 1. rewrite getAllLocationCodes_intact by done.
    unfold bind at 1. rewrite getAllLocations_intact by done.
    unfold bind at 1. rewrite getAllLocationCodes_intact by done.
    unfold bind at 1. unfold serialize. cbn [store].
    rewrite lookup_insert_eq. unfold ret. by rewrite length_fmap. }
  intros Hh. destruct (Hrun w Hh) as [Hfirst Hh1].
  set (w1 := {| store := <[fresh (dom (store w)) := spread locations_object]>
                           (store w);
                sent := sent w |}) in *.
  destruct (Hrun w1 Hh1) as [Hsecond _].
  eexists _, _, _, w1, _. split; [exact Hfirst|].
  split; [reflexivity|]. split; [by rewrite length_fmap|].
  split; [done|]. split; [done|]. exact Hsecond.
Qed.

Lemma get_api_locations_repeatable_witness :
  ∃ total entries codes w1,
    get_api_locations initial_world =
      (Return {| status := 200; body := Listing total entries codes |}, w1) ∧
    codes = entries.*1 ∧ sent w1 = [].
Proof.
  assert (Hintact : registry_intact (store initial_world))
    by (unfold registry_intact; simpl; reflexivity).
  destruct (get_api_locations_repeatable initial_world Hintact)
    as (total & entries & codes & w1 & w2 & Hrun & Hcodes & _ & _ & Hsent & _).
  exists total, entries, codes, w1.
  split; [exact Hrun|]. split; [exact Hcodes|exact Hsent].
Defined.

End ServerLaws.
